(** * The fractal open list of the planner's search component

    A shallow embedding of [src/search/open_lists/open_list.h] (the generic
    open list with its insertion filter and the queue disciplines of
    [pop_bucket]) and of [src/search/open_lists/fractal_open_list.cc] (the
    two index selectors and [FractalOpenList::remove_min]), followed by the
    properties of the specification that concern them.

    Conventions.  An [int] or [uint] is a [Z] whose wrap-around is written
    out with [to_int] and [to_uint]; a [std::vector] is a list; a
    [std::deque] is the list of its entries together with the slot that its
    front has in its node of storage; a [std::map] is a [gmap], its
    [begin()] being the entry with the least key; a C++ reference is the
    index of the slot it is bound to.  Undefined behaviour and failed
    assertions are faults of the [result] monad. *)

From stdpp Require Import gmap list.

Local Open Scope Z_scope.

(** ** Machine integers *)

Definition UINT_MODULUS : Z := 2 ^ 32.
Definition INT_MAX : Z := 2 ^ 31 - 1.
Definition INT_MIN : Z := - 2 ^ 31.

(** Conversion to [uint]: reduction modulo [2^32]. *)
Definition to_uint (z : Z) : Z := z mod UINT_MODULUS.

(** Conversion to [int]: the two's complement reading of the low 32 bits. *)
Definition to_int (z : Z) : Z :=
  let u := to_uint z in if u <? 2 ^ 31 then u else u - UINT_MODULUS.

(** ** Faults *)

Inductive Assertion :=
| SizePositive          (* assert(this->size > 0) *)
| BucketsNonEmpty       (* assert(!this->buckets.empty()) *)
| PrimaryBucketNonEmpty (* assert(!it->second.empty()) *)
| KeySlotEmpty          (* assert(key->empty()) *)
| TypeBucketNonEmpty.   (* assert(!tbucket.empty()) *)

Inductive Fault :=
| AssertionFailed (a : Assertion)
| SignedOverflow                       (* dim++ at INT_MAX *)
| RecordsOutOfRange (bucket_i : Z) (capacity : nat)
                                       (* records[bucket_i] past the end *)
| NoLiveTypeBucket (bucket_i : Z) (n : nat)
                                       (* tbuckets.begin() + bucket_i past
                                          the n live type buckets *)
| EmptyBucket                          (* front()/back() of an empty deque *)
| UseAfterFree.                        (* a read through a reference into a
                                          deque node that pop_front freed *)

Definition result (A : Type) : Type := Fault + A.

Definition ok {A} (a : A) : result A := inr a.
Definition fault {A} (f : Fault) : result A := inl f.

Definition rbind {A B} (m : result A) (k : A → result B) : result B :=
  match m with
  | inl f => inl f
  | inr a => k a
  end.

Notation "x ←! m ; k" := (rbind m (λ x, k))
  (at level 20, m at level 100, k at level 200, right associativity,
   format "x  ←!  m ;  '/' k").
Notation "' p ←! m ; k" := (rbind m (λ x, match x with p => k end))
  (at level 20, p pattern, m at level 100, k at level 200,
   right associativity, format "' p  ←!  m ;  '/' k").

Definition assert (b : bool) (a : Assertion) : result unit :=
  if b then ok tt else fault (AssertionFailed a).

Definition or_fault {A} (o : option A) (f : Fault) : result A :=
  match o with
  | Some a => ok a
  | None => fault f
  end.

(** ** The goto loop

    [retry: ... goto retry;] is a loop whose body either leaves with a value
    or goes round again with a new state.  [loop] runs the body at most [n]
    times, [n] in binary, so that a bound of the order of [2^31] costs
    nothing when the loop leaves early. *)

Section Loop.
Context {A B : Type} (body : A → B + A).

Fixpoint loop (n : positive) (a : A) : B + A :=
  match n with
  | xH => body a
  | xO n' =>
      match loop n' a with
      | inl b => inl b
      | inr a' => loop n' a'
      end
  | xI n' =>
      match body a with
      | inl b => inl b
      | inr a' =>
          match loop n' a' with
          | inl b => inl b
          | inr a'' => loop n' a''
          end
      end
  end.

(** The same loop with a unary bound, for reasoning. *)
Fixpoint loop_nat (n : nat) (a : A) : B + A :=
  match n with
  | O => inr a
  | S n' =>
      match body a with
      | inl b => inl b
      | inr a' => loop_nat n' a'
      end
  end.
End Loop.

(** ** The pseudo-random source *)

(** Modelled from the spec: [utils/rng.h] is not among the sources.  The
    shared generator [g_rng] is "a shared pseudo-random source"; a call
    [g_rng(bound)] yields an integer of [[0, bound)] and advances the
    generator.  The generator is the sequence of the raw numbers it will
    produce, each reduced to the requested range; an exhausted sequence
    goes on with zeros. *)
Definition RandomNumberGenerator : Type := list nat.

(** Modelled from the spec: [g_rng(bound)], the next raw number reduced to
    [[0, bound)]. *)
Definition g_rng (bound : Z) (g : RandomNumberGenerator)
  : Z * RandomNumberGenerator :=
  match g with
  | [] => (0, [])
  | raw :: g' => (Z.of_nat raw mod bound, g')
  end.

(** An outcome with the generator replaced. *)
Definition set_generator {A} (g : RandomNumberGenerator)
    (r : result (A * RandomNumberGenerator))
  : result (A * RandomNumberGenerator) :=
  x ←! r; ok (x.1, g).

(** ** [open_list.h]: queue disciplines *)

Inductive QueueType := FIFO | LIFO | RANDOM.

(** [sizeof(Entry)], in bytes: 4 for a [StateOpenListEntry], a [StateID],
    and 16 for an [EdgeOpenListEntry], a [StateID] with a pointer. *)
Class Sizeof (Entry : Type) := sizeof : positive.

(** A [std::deque] keeps its entries in nodes of 512 bytes, or of one
    entry when an entry is larger ([__deque_buf_size] of libstdc++): the
    number of slots of a node. *)
Definition deque_buf_size (size : positive) : nat :=
  if (size <? 512)%positive then N.to_nat (512 / N.pos size) else 1%nat.

Section Bucket.
Context {Entry : Type}.

(** [Bucket<Entry>] is a [std::deque<Entry>], laid out as libstdc++ does:
    its entries, the front at the head, and the slot of the front in its
    node ([_M_start._M_cur - _M_start._M_first]).  The entries after the
    front fill that node and the nodes that follow. *)
Record Bucket := {
  front_slot : nat;
  entries : list Entry
}.

(** A deque that was just constructed: no entry, the front at the first
    slot of a node. *)
Definition new_bucket : Bucket := {| front_slot := 0; entries := [] |}.

(** [bucket.push_back(entry)] *)
Definition push_back (entry : Entry) (bucket : Bucket) : Bucket :=
  {| front_slot := front_slot bucket; entries := entries bucket ++ [entry] |}.

(** [bucket.pop_back()]: the back is destroyed, its slot stays allocated
    (when the back is the first slot of its node, the node freed is the
    one after it, which holds no entry). *)
Definition pop_back (bucket : Bucket) : Bucket :=
  {| front_slot := front_slot bucket; entries := removelast (entries bucket) |}.

Definition back_slot (bucket : Bucket) : nat := pred (length (entries bucket)).

Context `{!Sizeof Entry}.

(** [bucket.pop_front()] frees the node of the front when the front is the
    last slot of it ([_M_start._M_cur == _M_start._M_last - 1]); the new
    front is then the first slot of the next node. *)
Definition front_node_freed (bucket : Bucket) : bool :=
  bool_decide (S (front_slot bucket) = deque_buf_size sizeof).

Definition pop_front (bucket : Bucket) : Bucket :=
  {| front_slot := if front_node_freed bucket then 0%nat
                   else S (front_slot bucket);
     entries := tail (entries bucket) |}.

(** [pop_bucket] returns a reference, [Entry&], and its caller copies the
    entry out of it at once ([Entry result = pop_bucket(...)]).  A
    reference is the index of a slot of the deque's storage; [slots] is
    that storage after the writes of the function.  Popping an entry
    (a [StateID], or a pair of a [StateID] and a pointer) shortens the
    deque and leaves the bytes of the slot in place, so the copy reads
    [slots] at the reference whether or not the slot is still live, as long
    as the node of the slot is allocated.  [pop_back] never frees the node
    of the entry it pops; [pop_front] does when the front is the last slot
    of its node, and the copy then reads freed storage. *)
Definition pop_bucket (bucket : Bucket) (queue_type : QueueType)
    (g : RandomNumberGenerator)
  : result (Entry * Bucket * RandomNumberGenerator) :=
  match queue_type with
  | LIFO =>
      let result_ref := back_slot bucket in   (* Entry &result = bucket.back(); *)
      let slots := entries bucket in
      let bucket := pop_back bucket in        (* bucket.pop_back(); *)
      entry ←! or_fault (slots !! result_ref) EmptyBucket;
      ok (entry, bucket, g)                   (* return result; *)
  | RANDOM =>
      let '(i, g) := g_rng (to_int (Z.of_nat (length (entries bucket)))) g in
                                              (* int i = g_rng(bucket.size()); *)
      let it := Z.to_nat i in                 (* auto it = bucket.begin()+i; *)
      let result_ref := it in                 (* Entry &result = *it; *)
      last ←! or_fault (entries bucket !! back_slot bucket) EmptyBucket;
      let slots := <[it := last]> (entries bucket) in
                                              (* *it = bucket.back(); *)
      let bucket :=
        pop_back {| front_slot := front_slot bucket; entries := slots |} in
                                              (* bucket.pop_back(); *)
      entry ←! or_fault (slots !! result_ref) EmptyBucket;
      ok (entry, bucket, g)                   (* return result; *)
  | FIFO =>
      let result_ref := 0%nat in              (* Entry &result = bucket.front(); *)
      let slots := entries bucket in
      let freed := front_node_freed bucket in
      let bucket := pop_front bucket in       (* bucket.pop_front(); *)
      entry ←! or_fault (slots !! result_ref) EmptyBucket;
      if freed then fault UseAfterFree        (* return result; *)
      else ok (entry, bucket, g)
  end.

(** Whether a pop frees the node of the slot that its reference is bound
    to: under FIFO, when the front is the last slot of its node. *)
Definition pop_reads_freed_node (bucket : Bucket) (queue_type : QueueType)
  : bool :=
  match queue_type with
  | FIFO => front_node_freed bucket
  | LIFO | RANDOM => false
  end.

(** Popping a bucket [n] times. *)
Fixpoint pop_all (n : nat) (bucket : Bucket) (queue_type : QueueType)
    (g : RandomNumberGenerator)
  : result (list Entry * Bucket * RandomNumberGenerator) :=
  match n with
  | O => ok ([], bucket, g)
  | S n' =>
      '(entry, bucket, g) ←! pop_bucket bucket queue_type g;
      '(entries, bucket, g) ←! pop_all n' bucket queue_type g;
      ok (entry :: entries, bucket, g)
  end.
End Bucket.

Arguments Bucket : clear implicits.
Arguments Build_Bucket {Entry}.

(** ** [fractal_open_list.cc]: the index selectors *)

(** [depth*dim > record], in [uint] arithmetic: [depth] is a [uint], so the
    [int] [dim] is converted and the product wraps. *)
Definition size_diff (depth dim record : Z) : bool :=
  record <? to_uint (depth * to_uint dim).

(** The loop of [first_index_with_size_diff], entered with the current value
    of [depth]; [Some depth] is the [return depth] inside the loop. *)
Fixpoint first_index_scan (records : list Z) (dim depth : Z) : option Z :=
  match records with
  | [] => None
  | record :: records' =>
      let depth := to_uint (depth + 1) in
      if size_diff depth dim record then Some depth
      else first_index_scan records' dim depth
  end.

Definition first_index_with_size_diff (records : list Z) (dim : Z) : Z :=
  match first_index_scan records dim 0 with
  | Some depth => to_int depth
  | None => if decide (records = []) then 0 else -1
  end.

(** The loop of [random_index_with_size_diff]: the vector [indices]. *)
Fixpoint collect_indices (records : list Z) (dim depth : Z) : list Z :=
  match records with
  | [] => []
  | record :: records' =>
      let depth := to_uint (depth + 1) in
      if size_diff depth dim record
      then to_int depth :: collect_indices records' dim depth
      else collect_indices records' dim depth
  end.

Definition random_index_with_size_diff (records : list Z) (dim : Z)
    (g : RandomNumberGenerator) : Z * RandomNumberGenerator :=
  let indices := collect_indices records dim 0 in
  if decide (records = []) then (0, g)
  else if decide (indices = []) then (-1, g)
  else g_rng (to_int (Z.of_nat (length indices))) g.

(** ** [fractal_open_list.cc]: the dimension loop of [remove_min] *)

Definition select_index (stochastic : bool) (records : list Z) (dim : Z)
    (g : RandomNumberGenerator) : Z * RandomNumberGenerator :=
  if stochastic then random_index_with_size_diff records dim g
  else (first_index_with_size_diff records dim, g).

(** What the loop leaves with: the index, the dimension reached and the
    generator. *)
Definition Selection : Type := Z * Z * RandomNumberGenerator.

(** One round of [retry:].  The state of the loop is [dim] and the
    generator; [records] is not written between the label and the [goto]. *)
Definition retry_body (stochastic : bool) (records : list Z)
    (s : Z * RandomNumberGenerator)
  : result Selection + Z * RandomNumberGenerator :=
  let '(dim, g) := s in
  let '(bucket_i, g) := select_index stochastic records dim g in
  if bucket_i <? 0 then
    if dim <? INT_MAX then inr (dim + 1, g)      (* dim++; goto retry; *)
    else inl (fault SignedOverflow)
  else inl (ok (bucket_i, dim, g)).

(** From [dim] the loop can go round [INT_MAX - dim] times before [dim++]
    overflows, so it leaves within one round more. *)
Definition retry_rounds (dim : Z) : positive := Z.to_pos (INT_MAX - dim + 1).

Definition retry (stochastic : bool) (records : list Z) (dim : Z)
    (g : RandomNumberGenerator) : result Selection :=
  match loop (retry_body stochastic records) (retry_rounds dim) (dim, g) with
  | inl selection => selection
  | inr _ => fault SignedOverflow
  end.

(** ** The open list *)

(** A [Key] is a [std::vector<int>]; [std::map] orders its keys with the
    vector's [operator<], the lexicographic order. *)
Definition Key : Type := list Z.

Fixpoint key_ltb (a b : Key) : bool :=
  match a, b with
  | _, [] => false
  | [], _ :: _ => true
  | x :: a', y :: b' =>
      if x <? y then true
      else if y <? x then false
      else key_ltb a' b'
  end.

(** [m.begin()]: the entry of the least key, if there is one. *)
Definition begin {V} (m : gmap Key V) : option (Key * V) :=
  foldr (λ kv least,
           match least with
           | None => Some kv
           | Some kv' => if key_ltb kv.1 kv'.1 then Some kv else Some kv'
           end)
        None (map_to_list m).

Section FractalOpenList.
Context {Entry : Type} `{!Sizeof Entry}.

(** Modelled from the spec: [typed_tiebreaking_open_list.h], the base
    class that declares [buckets], [size] and [stochastic], is not among
    the sources.  A primary bucket "owns an ordered sequence of (type
    label, type-bucket) pairs in first-seen order", the type label being
    "an integer from a secondary evaluator". *)
Definition TypeBuckets : Type := list (Z * Bucket Entry).

(** The fields of the three classes.  Modelled from the spec: [buckets],
    [size] and [stochastic] are declared by the base class, which maps each
    key to its primary bucket, counts the entries and holds the option
    [stochastic]. *)
Record FractalOpenList := {
  (* OpenList *)
  only_preferred : bool;
  queue_type : QueueType;
  (* TypedTiebreakingOpenList *)
  buckets : gmap Key TypeBuckets;
  size : Z;
  stochastic : bool;
  (* FractalOpenList *)
  expansion_records : gmap Key (list Z);
  current_dimension : gmap Key Z;
  max_depth : Z
}.

Definition set_size (self : FractalOpenList) (n : Z) : FractalOpenList :=
  {| only_preferred := only_preferred self; queue_type := queue_type self;
     buckets := buckets self; size := n; stochastic := stochastic self;
     expansion_records := expansion_records self;
     current_dimension := current_dimension self;
     max_depth := max_depth self |}.

Definition set_buckets (self : FractalOpenList) (b : gmap Key TypeBuckets)
  : FractalOpenList :=
  {| only_preferred := only_preferred self; queue_type := queue_type self;
     buckets := b; size := size self; stochastic := stochastic self;
     expansion_records := expansion_records self;
     current_dimension := current_dimension self;
     max_depth := max_depth self |}.

Definition set_diversification (self : FractalOpenList)
    (r : gmap Key (list Z)) (d : gmap Key Z) : FractalOpenList :=
  {| only_preferred := only_preferred self; queue_type := queue_type self;
     buckets := buckets self; size := size self;
     stochastic := stochastic self;
     expansion_records := r; current_dimension := d;
     max_depth := max_depth self |}.

(** [expansion_records[key]] and [current_dimension[key]]: [operator[]] of
    [std::map] creates a value-initialised entry for a key it does not
    hold, an empty vector or [0]. *)
Definition records_of (self : FractalOpenList) (key : Key) : list Z :=
  default [] (expansion_records self !! key).
Definition dimension_of (self : FractalOpenList) (key : Key) : Z :=
  default 0 (current_dimension self !! key).

(** [records[bucket_i]++], on a [uint]. *)
Definition increment_record (records : list Z) (bucket_i : Z)
  : result (list Z) :=
  count ←! or_fault (records !! Z.to_nat bucket_i)
                    (RecordsOutOfRange bucket_i (length records));
  ok (<[Z.to_nat bucket_i := to_uint (count + 1)]> records).

(** [if (records.empty()) records.resize(32);] *)
Definition initial_records (records : list Z) : list Z :=
  if decide (records = []) then replicate 32 0 else records.

(** [if ((uint)(bucket_i) >= records.size()) records.resize(records.size()*2);] *)
Definition grow_records (records : list Z) (bucket_i : Z) : list Z :=
  if Z.of_nat (length records) <=? bucket_i
  then records ++ replicate (length records) 0
  else records.

(** The end of [remove_min]: the popped type bucket is written back, or
    erased when it is empty, and the primary bucket with it when it has no
    type bucket left. *)
Definition store_type_bucket (it_first : Key) (it2 : nat) (label : Z)
    (tbucket : Bucket Entry) (tbuckets : TypeBuckets)
    (buckets : gmap Key TypeBuckets) : gmap Key TypeBuckets :=
  if bool_decide (entries tbucket = []) then       (* if (tbucket.empty()) *)
    let tbuckets := delete it2 tbuckets in            (* tbuckets.erase(it2); *)
    if bool_decide (tbuckets = [])
    then delete it_first buckets                      (* buckets.erase(it); *)
    else <[it_first := tbuckets]> buckets
  else <[it_first := <[it2 := (label, tbucket)]> tbuckets]> buckets.

(** [FractalOpenList::remove_min].  [key] is [None] for a null pointer and
    [Some v] for a pointer to a vector that holds [v]; the second
    component of the outcome is that vector on return. *)
Definition remove_min (key : option Key) (self : FractalOpenList)
    (g : RandomNumberGenerator)
  : result (Entry * option Key * FractalOpenList * RandomNumberGenerator) :=
  _ ←! assert (0 <? size self) SizePositive;
  let self := set_size self (size self - 1) in             (* --(this->size); *)
  '(it_first, tbuckets) ←!
     or_fault (begin (buckets self)) (AssertionFailed BucketsNonEmpty);
  _ ←! assert (negb (bool_decide (tbuckets = []))) PrimaryBucketNonEmpty;
  key ←! match key with
         | None => ok None
         | Some v => _ ←! assert (bool_decide (v = [])) KeySlotEmpty;
                     ok (Some it_first)                    (* *key = it->first; *)
         end;
  let records := initial_records (records_of self it_first) in
  let dim := dimension_of self it_first in
  '(bucket_i, dim, g) ←! retry (stochastic self) records dim g;
  let records := grow_records records bucket_i in
  records ←! increment_record records bucket_i;            (* records[bucket_i]++; *)
  let self :=
    set_diversification self
      (<[it_first := records]> (expansion_records self))
      (<[it_first := dim]> (current_dimension self)) in
  let it2 := Z.to_nat bucket_i in             (* tbuckets.begin() + bucket_i *)
  '(label, tbucket) ←!
     or_fault (tbuckets !! it2) (NoLiveTypeBucket bucket_i (length tbuckets));
  _ ←! assert (negb (bool_decide (entries tbucket = []))) TypeBucketNonEmpty;
  '(entry, tbucket, g) ←! pop_bucket tbucket (queue_type self) g;
  let self :=
    set_buckets self
      (store_type_bucket it_first it2 label tbucket tbuckets (buckets self)) in
  ok (entry, key, self, g).
End FractalOpenList.

Arguments FractalOpenList : clear implicits.
Arguments TypeBuckets : clear implicits.

(** ** [open_list.h]: the insertion filter *)

(** The abstract class [OpenList<Entry>]: the field [only_preferred], the
    query [eval_context.is_preferred()] and the two pure virtual methods
    that [insert] calls.  [is_dead_end] is [const] on the list and may cache
    heuristic values in the context; [do_insertion] changes both. *)
Class OpenList (Self Context Entry : Type) := {
  get_only_preferred : Self → bool;
  context_is_preferred : Context → bool;
  is_dead_end : Self → Context → bool * Context;
  do_insertion : Context → Entry → Self → Self * Context
}.

Section Insert.
Context `{OpenList Self Context Entry}.

(** [OpenList<Entry>::insert].  The third component of the outcome lists
    the calls of [do_insertion] that were made, with their arguments. *)
Definition insert (eval_context : Context) (entry : Entry) (self : Self)
  : Self * Context * list (Context * Entry) :=
  if get_only_preferred self && negb (context_is_preferred eval_context)
  then (self, eval_context, [])                                (* return; *)
  else
    let '(dead, eval_context) := is_dead_end self eval_context in
    if negb dead then
      let '(self', eval_context') := do_insertion eval_context entry self in
      (self', eval_context', [(eval_context, entry)])
    else (self, eval_context, []).
End Insert.

(** ** Insertion into the fractal open list *)

(** Modelled from the spec: [evaluation_context.h] is not among the sources.
    The context "supplies, for a node being considered, integer-valued
    results from one or more evaluators, a preferred flag, and dead-end
    status": here the results are the primary key and the type label. *)
Record EvaluationContext := {
  is_preferred : bool;
  dead_end : bool;
  eval_key : Key;
  eval_type : Z
}.

Section FractalInsertion.
Context {Entry : Type} `{!Sizeof Entry}.

(** Modelled from the spec: [TypedTiebreakingOpenList::do_insertion] is in
    [typed_tiebreaking_open_list.cc], which is not among the sources.
    Insertion "locates or creates the primary bucket for the Key, locates
    or creates the type bucket for the label within it (appended at the end
    if new), and pushes the entry"; "every successful insertion
    increments" the entry count "by exactly one".  Under FIFO "pop removes
    the earliest-inserted surviving entry" and [pop_bucket] pops the front,
    so the entry is pushed at the back.  On the storage of the queues the
    specification is silent: here a type bucket that is created is a new
    deque, and a deque keeps its storage while it stands in the
    sequence. *)
Definition push_typed (label : Z) (entry : Entry)
    (tbuckets : TypeBuckets Entry) : TypeBuckets Entry :=
  match list_find (λ tb, tb.1 = label) tbuckets with
  | Some (i, (_, bucket)) => <[i := (label, push_back entry bucket)]> tbuckets
  | None => tbuckets ++ [(label, push_back entry new_bucket)]
  end.

(** Modelled from the spec: [do_insertion], with the key and the type label
    that the evaluators report in the context. *)
Definition typed_do_insertion (eval_context : EvaluationContext)
    (entry : Entry) (self : FractalOpenList Entry) : FractalOpenList Entry :=
  let key := eval_key eval_context in
  let tbuckets := default [] (buckets self !! key) in
  let tbuckets := push_typed (eval_type eval_context) entry tbuckets in
  set_size (set_buckets self (<[key := tbuckets]> (buckets self)))
           (size self + 1).

(** Modelled from the spec: [is_dead_end] of the base class is not among
    the sources; the list is a dead end for a node when "the context marks
    the node a dead end". *)
#[export] Instance fractal_open_list
  : OpenList (FractalOpenList Entry) EvaluationContext Entry := {|
  get_only_preferred := only_preferred;
  context_is_preferred := is_preferred;
  is_dead_end := λ _ eval_context, (dead_end eval_context, eval_context);
  do_insertion := λ eval_context entry self,
    (typed_do_insertion eval_context entry self, eval_context)
|}.

(** The constructor: [assert(max_depth>0)], over the list that the base
    class constructs.  Modelled from the spec: that list is empty. *)
Definition new_FractalOpenList (pref_only : bool) (queue : QueueType)
    (stoch : bool) (depth : Z) : option (FractalOpenList Entry) :=
  if 0 <? depth then
    Some {| only_preferred := pref_only; queue_type := queue;
            buckets := ∅; size := 0; stochastic := stoch;
            expansion_records := ∅; current_dimension := ∅;
            max_depth := depth |}
  else None.

(** ** Runs of the open list *)

Inductive Operation :=
| Insert (eval_context : EvaluationContext) (entry : Entry)
| RemoveMin (key : option Key).

(** The entries popped by a sequence of calls, in order, and where the
    sequence ends: in a fault, or with the list and the generator. *)
Fixpoint run (ops : list Operation) (self : FractalOpenList Entry)
    (g : RandomNumberGenerator)
  : list Entry * result (FractalOpenList Entry * RandomNumberGenerator) :=
  match ops with
  | [] => ([], ok (self, g))
  | Insert eval_context entry :: ops' =>
      run ops' (insert eval_context entry self).1.1 g
  | RemoveMin key :: ops' =>
      match remove_min key self g with
      | inl f => ([], fault f)
      | inr (entry, _, self', g') =>
          let '(popped, final) := run ops' self' g' in
          (entry :: popped, final)
      end
  end.
End FractalInsertion.

Arguments Operation : clear implicits.

(** ** States of the open list *)

Section Reachable.
Context {Entry : Type} `{!Sizeof Entry}.

(** The lists a search can hold: made by the constructor, changed by
    [insert] and by the calls of [remove_min] that return. *)
Inductive reachable : FractalOpenList Entry → Prop :=
| reachable_new pref_only queue stoch depth self :
    new_FractalOpenList pref_only queue stoch depth = Some self →
    reachable self
| reachable_insert self eval_context entry :
    reachable self →
    reachable (insert eval_context entry self).1.1
| reachable_remove_min self key g entry key' self' g' :
    reachable self →
    remove_min key self g = ok (entry, key', self', g') →
    reachable self'.

(** Dimensions and usage counts are not negative. *)
Definition diversification_wf (self : FractalOpenList Entry) : Prop :=
  ∀ key, 0 ≤ dimension_of self key ∧
         Forall (λ record, 0 ≤ record) (records_of self key).
End Reachable.

(** ** The candidates of the specification *)

(** In the words of the specification: the rank of "each ordinal position
    [p]" is "[p+1] (1-based)", and "a position [p] is a candidate iff
    [rank(p) * dimension > records[p]]". *)
Definition spec_rank (p : nat) : Z := Z.of_nat p + 1.

Definition spec_candidate (records : list Z) (dimension : Z) (p : nat) : Prop :=
  ∃ count, records !! p = Some count ∧ spec_rank p * dimension > count.

(** The candidates of the code: the test [depth*dim > record] of the two
    selectors at position [p], where [depth] is [p + 1]; and the dimensions
    at which a selector returns an index, those with a candidate, or any
    when there is no count at all. *)
Definition candidate (records : list Z) (dim : Z) (p : nat) : Prop :=
  ∃ record,
    records !! p = Some record ∧ size_diff (Z.of_nat p + 1) dim record = true.

Definition admits (records : list Z) (dim : Z) : Prop :=
  records = [] ∨ ∃ p, candidate records dim p.

(** ** Example inputs *)

(** The entries of the examples are numbers, of the size of a [StateID],
    which holds one [int]. *)
#[export] Instance sizeof_StateID : Sizeof nat := 4%positive.

(** A context for a preferred node that is no dead end. *)
Definition example_context (key : Key) (label : Z) : EvaluationContext :=
  {| is_preferred := true; dead_end := false;
     eval_key := key; eval_type := label |}.

(** A new list over entries that are numbers, with [max_depth] at its
    default. *)
Definition example_new (queue : QueueType) (stoch : bool) : FractalOpenList nat :=
  {| only_preferred := false; queue_type := queue;
     buckets := ∅; size := 0; stochastic := stoch;
     expansion_records := ∅; current_dimension := ∅;
     max_depth := 1000000 |}.

(** A new list that takes preferred entries only, and a context that is
    not preferred. *)
Definition example_preferred_only : FractalOpenList nat :=
  {| only_preferred := true; queue_type := FIFO;
     buckets := ∅; size := 0; stochastic := true;
     expansion_records := ∅; current_dimension := ∅;
     max_depth := 1000000 |}.

Definition example_unpreferred : EvaluationContext :=
  {| is_preferred := false; dead_end := false;
     eval_key := [3]; eval_type := 0 |}.

(** One entry, [7], under key [[3]] and type label [0]. *)
Definition example_single (queue : QueueType) (stoch : bool) : FractalOpenList nat :=
  (insert (example_context [3] 0) 7%nat (example_new queue stoch)).1.1.

(** Key [[3]] with two type buckets: [7] under label [0], and [1], [2],
    [3] under label [1]. *)
Definition example_two_types (queue : QueueType) (stoch : bool)
  : FractalOpenList nat :=
  let self := example_single queue stoch in
  let self := (insert (example_context [3] 1) 1%nat self).1.1 in
  let self := (insert (example_context [3] 1) 2%nat self).1.1 in
  (insert (example_context [3] 1) 3%nat self).1.1.

(** ** Bookkeeping of the open list *)

Section Bookkeeping.
Context {Entry : Type}.

(** The entries that a primary bucket holds, and those that a map of
    primary buckets holds: the sizes of the type buckets, added up. *)
Definition tbuckets_entries (tbuckets : TypeBuckets Entry) : nat :=
  sum_list_with (λ tb, length (entries tb.2)) tbuckets.

Definition buckets_entries (m : gmap Key (TypeBuckets Entry)) : nat :=
  map_fold (λ _ tbuckets n, (tbuckets_entries tbuckets + n)%nat) 0%nat m.

Definition stored (self : FractalOpenList Entry) : nat :=
  buckets_entries (buckets self).

(** No primary bucket is without a type bucket and no type bucket without
    an entry. *)
Definition buckets_wf (m : gmap Key (TypeBuckets Entry)) : Prop :=
  ∀ key tbuckets,
    m !! key = Some tbuckets →
    tbuckets ≠ [] ∧ Forall (λ tb, entries tb.2 ≠ []) tbuckets.

(** The usage counts of a key are absent or 32 in number; in deterministic
    mode the first of them is 0 and the dimension at most 1. *)
Definition records_wf (self : FractalOpenList Entry) : Prop :=
  ∀ key,
    (records_of self key = [] ∨ length (records_of self key) = 32%nat) ∧
    (stochastic self = false →
     (records_of self key = [] ∨ records_of self key !! 0%nat = Some 0) ∧
     dimension_of self key ≤ 1).

(** The list with another value of [max_depth]. *)
Definition set_max_depth (self : FractalOpenList Entry) (depth : Z)
  : FractalOpenList Entry :=
  {| only_preferred := only_preferred self; queue_type := queue_type self;
     buckets := buckets self; size := size self;
     stochastic := stochastic self;
     expansion_records := expansion_records self;
     current_dimension := current_dimension self;
     max_depth := depth |}.
End Bookkeeping.

(** * Properties *)

(** ** Machine integers *)

Lemma to_uint_range z : 0 ≤ to_uint z < 2 ^ 32.
Proof. unfold to_uint, UINT_MODULUS. apply Z.mod_pos_bound. lia. Qed.

Lemma to_uint_small z : 0 ≤ z < 2 ^ 32 → to_uint z = z.
Proof. intros Hz. unfold to_uint, UINT_MODULUS. by apply Z.mod_small. Qed.

Lemma to_uint_negative z : - 2 ^ 32 ≤ z < 0 → to_uint z = z + 2 ^ 32.
Proof.
  intros Hz. unfold to_uint, UINT_MODULUS.
  symmetry. apply (Z.mod_unique_pos z (2 ^ 32) (-1)); lia.
Qed.

Lemma to_int_small z : 0 ≤ z < 2 ^ 31 → to_int z = z.
Proof.
  intros Hz. unfold to_int. rewrite to_uint_small by lia.
  destruct (Z.ltb_spec z (2 ^ 31)); lia.
Qed.

Lemma size_diff_spec depth dim record :
  size_diff depth dim record = true ↔ record < to_uint (depth * to_uint dim).
Proof. unfold size_diff. apply Z.ltb_lt. Qed.

(** With a dimension of zero the product is zero, and no count is below it. *)
Lemma size_diff_dim_0 depth record : 0 ≤ record → size_diff depth 0 record = false.
Proof.
  intros Hr. unfold size_diff.
  replace (depth * to_uint 0) with 0 by (rewrite (to_uint_small 0); lia).
  rewrite (to_uint_small 0) by lia. apply Z.ltb_ge. lia.
Qed.

(** The first rank is a candidate as soon as the converted dimension is
    above the first count. *)
Lemma size_diff_rank_1 dim record :
  size_diff (to_uint (0 + 1)) dim record = true ↔ record < to_uint dim.
Proof.
  rewrite size_diff_spec, (to_uint_small (0 + 1)), Z.mul_1_l by lia.
  by rewrite (to_uint_small (to_uint dim)) by apply to_uint_range.
Qed.

(** ** The goto loop *)

Section LoopFacts.
Context {A B : Type} (body : A → B + A).

Lemma loop_nat_add n m a :
  loop_nat body (n + m) a =
  match loop_nat body n a with
  | inl b => inl b
  | inr a' => loop_nat body m a'
  end.
Proof.
  revert a. induction n as [|n IH]; intros a; simpl; [done|].
  destruct (body a); [done|]. apply IH.
Qed.

(** The binary bound counts rounds as the unary one does. *)
Lemma loop_unary n a : loop body n a = loop_nat body (Pos.to_nat n) a.
Proof.
  revert a. induction n as [n IH|n IH|]; intros a.
  - replace (Pos.to_nat n~1) with (S (Pos.to_nat n + Pos.to_nat n)) by lia.
    simpl. destruct (body a) as [b|a']; [done|].
    rewrite loop_nat_add, IH. destruct (loop_nat _ _ a'); [done|]. apply IH.
  - replace (Pos.to_nat n~0) with (Pos.to_nat n + Pos.to_nat n)%nat by lia.
    simpl. rewrite loop_nat_add, IH. destruct (loop_nat _ _ a); [done|]. apply IH.
  - simpl. by destruct (body a).
Qed.

(** A loop that leaves does so from a state the invariant holds of. *)
Lemma loop_nat_leaves (I : A → Prop) n a b :
  (∀ a a', I a → body a = inr a' → I a') →
  I a → loop_nat body n a = inl b →
  ∃ a', I a' ∧ body a' = inl b.
Proof.
  intros Hstep. revert a. induction n as [|n IH]; intros a Ha; simpl; [done|].
  destruct (body a) as [b'|a'] eqn:Hbody.
  - intros [= <-]. eauto.
  - apply IH. eauto.
Qed.

(** A loop whose rounds decrease a measure leaves before the measure is
    used up. *)
Lemma loop_nat_terminates (I : A → Prop) (mu : A → nat) n a :
  (∀ a a', I a → body a = inr a' → I a' ∧ (mu a' < mu a)%nat) →
  I a → (mu a < n)%nat →
  ∃ b, loop_nat body n a = inl b.
Proof.
  intros Hstep. revert a. induction n as [|n IH]; intros a Ha Hmu; [lia|].
  simpl. destruct (body a) as [b'|a'] eqn:Hbody; [eauto|].
  destruct (Hstep _ _ Ha Hbody) as [Ha' Hlt]. apply IH; [done|lia].
Qed.
End LoopFacts.

(** ** The pseudo-random source *)

Lemma g_rng_range bound g : 0 < bound → 0 ≤ (g_rng bound g).1 < bound.
Proof.
  intros Hb. destruct g as [|raw g]; simpl; [lia|].
  apply Z.mod_pos_bound. lia.
Qed.

(** ** The index selectors *)

Lemma first_index_scan_dim_0 records depth :
  Forall (λ record, 0 ≤ record) records →
  first_index_scan records 0 depth = None.
Proof.
  intros Hrec. revert depth.
  induction Hrec as [|record records Hr _ IH]; intros depth; simpl; [done|].
  by rewrite size_diff_dim_0.
Qed.

Lemma collect_indices_dim_0 records depth :
  Forall (λ record, 0 ≤ record) records →
  collect_indices records 0 depth = [].
Proof.
  intros Hrec. revert depth.
  induction Hrec as [|record records Hr _ IH]; intros depth; simpl; [done|].
  by rewrite size_diff_dim_0.
Qed.

(** With a dimension of zero both selectors report that no position is a
    candidate, and the generator is not advanced. *)
Lemma select_index_dim_0 stochastic records g :
  Forall (λ record, 0 ≤ record) records → records ≠ [] →
  select_index stochastic records 0 g = (-1, g).
Proof.
  intros Hrec Hne. unfold select_index, random_index_with_size_diff,
    first_index_with_size_diff.
  rewrite first_index_scan_dim_0, collect_indices_dim_0 by done.
  destruct stochastic; by rewrite !decide_False by done.
Qed.

Lemma collect_indices_length records dim depth :
  (length (collect_indices records dim depth) ≤ length records)%nat.
Proof.
  revert depth. induction records as [|record records IH]; intros depth; simpl; [done|].
  destruct (size_diff _ _ _); simpl; [apply le_n_S|apply Nat.le_le_succ_r]; apply IH.
Qed.

(** The ranks that the deterministic scan can return. *)
Lemma first_index_scan_range records dim depth d :
  first_index_scan records dim depth = Some d →
  0 ≤ depth → depth + Z.of_nat (length records) < 2 ^ 32 →
  depth < d ≤ depth + Z.of_nat (length records).
Proof.
  revert depth. induction records as [|record records IH]; intros depth; simpl; [done|].
  intros Hscan Hd Hlen. rewrite (to_uint_small (depth + 1)) in Hscan by lia.
  destruct (size_diff _ _ _).
  - injection Hscan as <-. lia.
  - apply IH in Hscan; lia.
Qed.

(** The deterministic selector never returns position 0 of a non-empty
    array: it returns the 1-based rank of the first candidate. *)
Lemma first_index_with_size_diff_range records dim :
  records ≠ [] → Z.of_nat (length records) < 2 ^ 31 →
  first_index_with_size_diff records dim = -1 ∨
  1 ≤ first_index_with_size_diff records dim ≤ Z.of_nat (length records).
Proof.
  intros Hne Hlen. unfold first_index_with_size_diff.
  destruct (first_index_scan records dim 0) as [d|] eqn:Hscan.
  - right. apply first_index_scan_range in Hscan; [|lia..].
    rewrite to_int_small; lia.
  - left. by rewrite decide_False.
Qed.

(** When the converted dimension is above the first count, rank 1 is a
    candidate and both selectors return an index. *)
Lemma select_index_rank_1 stochastic record records dim g :
  record < to_uint dim →
  Z.of_nat (length (record :: records)) < 2 ^ 31 →
  0 ≤ (select_index stochastic (record :: records) dim g).1.
Proof.
  intros Hrec Hlen. apply size_diff_rank_1 in Hrec.
  unfold select_index, random_index_with_size_diff, first_index_with_size_diff.
  destruct stochastic; simpl first_index_scan; simpl collect_indices;
    rewrite Hrec.
  - rewrite decide_False by done. rewrite decide_False by done.
    pose proof (collect_indices_length records dim (to_uint (0 + 1))) as Hle.
    simpl length in *.
    apply g_rng_range. rewrite to_int_small; lia.
  - simpl. rewrite (to_uint_small (0 + 1)), (to_int_small (0 + 1)); lia.
Qed.

(** ** The dimension loop *)

Lemma retry_rounds_unary dim :
  dim ≤ INT_MAX → Z.of_nat (Pos.to_nat (retry_rounds dim)) = INT_MAX - dim + 1.
Proof. intros Hdim. unfold retry_rounds. lia. Qed.

Lemma retry_unary stochastic records dim g :
  retry stochastic records dim g =
  match loop_nat (retry_body stochastic records)
          (Pos.to_nat (retry_rounds dim)) (dim, g) with
  | inl selection => selection
  | inr _ => fault SignedOverflow
  end.
Proof. unfold retry. by rewrite loop_unary. Qed.

Lemma retry_body_continues stochastic records dim g s :
  retry_body stochastic records (dim, g) = inr s →
  (select_index stochastic records dim g).1 < 0 ∧ dim < INT_MAX ∧
  s = (dim + 1, (select_index stochastic records dim g).2).
Proof.
  unfold retry_body. destruct (select_index _ _ _ _) as [bucket_i g'].
  destruct (Z.ltb_spec bucket_i 0); [|done].
  destruct (Z.ltb_spec dim INT_MAX); [|done].
  by intros [= <-].
Qed.

Lemma retry_body_selects stochastic records dim g bucket_i dim' g' :
  retry_body stochastic records (dim, g) = inl (ok (bucket_i, dim', g')) →
  select_index stochastic records dim g = (bucket_i, g') ∧ 0 ≤ bucket_i ∧
  dim' = dim.
Proof.
  unfold retry_body. destruct (select_index _ _ _ _) as [i g0].
  destruct (Z.ltb_spec i 0).
  - by destruct (dim <? INT_MAX).
  - by intros [= -> -> ->].
Qed.

(** A selection of the loop: the dimension did not decrease, and the index
    is the one a selector returned at the dimension reached. *)
Lemma retry_selects stochastic records dim g bucket_i dim' g' :
  retry stochastic records dim g = ok (bucket_i, dim', g') →
  dim ≤ dim' ∧ 0 ≤ bucket_i ∧
  ∃ g0, select_index stochastic records dim' g0 = (bucket_i, g').
Proof.
  rewrite retry_unary.
  destruct (loop_nat _ _ _) as [selection|] eqn:Hloop; [|discriminate].
  intros ->.
  apply (loop_nat_leaves _ (λ s, dim ≤ s.1)) in Hloop; [|..|simpl; lia].
  - destruct Hloop as ([d g0] & Hd & Hbody). simpl in Hd.
    apply retry_body_selects in Hbody as (Hsel & Hi & ->). eauto.
  - intros [d g0] s Hd Hbody. simpl in Hd.
    apply retry_body_continues in Hbody as (_ & _ & ->). simpl. lia.
Qed.

(** The bound of the loop is never used up. *)
Lemma retry_leaves stochastic records dim g :
  ∃ selection,
    loop (retry_body stochastic records) (retry_rounds dim) (dim, g)
      = inl selection.
Proof.
  rewrite loop_unary.
  apply (loop_nat_terminates _ (λ s, dim ≤ s.1)
           (λ s, Z.to_nat (INT_MAX - s.1))); [|simpl; lia|].
  - intros [d g0] s Hd Hbody. simpl in Hd.
    apply retry_body_continues in Hbody as (_ & Hlt & ->). simpl. lia.
  - unfold retry_rounds. simpl. lia.
Qed.

(** A selector that finds no candidate although the first count is small
    was asked with a dimension between zero and that count. *)
Lemma select_index_negative stochastic record records dim g :
  (select_index stochastic (record :: records) dim g).1 < 0 →
  0 ≤ record < INT_MAX → INT_MIN ≤ dim ≤ INT_MAX →
  Z.of_nat (length (record :: records)) < 2 ^ 31 →
  0 ≤ dim ≤ record.
Proof.
  intros Hneg Hrec Hdim Hlen. unfold INT_MIN, INT_MAX in *.
  destruct (Z.lt_ge_cases record (to_uint dim)) as [Hlt|Hge].
  - pose proof (select_index_rank_1 stochastic _ _ _ g Hlt Hlen). lia.
  - destruct (Z.lt_ge_cases dim 0).
    + rewrite to_uint_negative in Hge; lia.
    + rewrite to_uint_small in Hge; lia.
Qed.

Lemma retry_selects_within stochastic record records dim n d g :
  0 ≤ record < INT_MAX → INT_MIN ≤ dim ≤ INT_MAX →
  Z.of_nat (length (record :: records)) < 2 ^ 31 →
  dim ≤ d ≤ Z.max dim (record + 1) →
  (Z.to_nat (Z.max dim (record + 1) - d) < n)%nat →
  ∃ bucket_i dim' g',
    loop_nat (retry_body stochastic (record :: records)) n (d, g)
      = inl (ok (bucket_i, dim', g')) ∧
    d ≤ dim' ≤ Z.max dim (record + 1).
Proof.
  intros Hrec Hdim Hlen. revert d g.
  induction n as [|n IH]; intros d g Hd Hn; [lia|].
  cbn [loop_nat]. destruct (retry_body _ _ _) as [[f|[[i d'] g']]|s] eqn:Hbody.
  - exfalso. unfold retry_body in Hbody.
    destruct (select_index _ _ _ _) as [i g0] eqn:Hsel.
    destruct (Z.ltb_spec i 0) as [Hi|]; [|done].
    destruct (Z.ltb_spec d INT_MAX) as [|Hmax]; [done|].
    assert (0 ≤ d ≤ record); [|lia].
    eapply (select_index_negative stochastic); [by rewrite Hsel|done|..|done].
    unfold INT_MIN, INT_MAX in *. lia.
  - apply retry_body_selects in Hbody as (_ & _ & ->). exists i, d, g'.
    split; [done|lia].
  - apply retry_body_continues in Hbody as (Hneg & Hlt & ->).
    apply select_index_negative in Hneg; [|done|unfold INT_MIN, INT_MAX in *; lia|done].
    destruct (IH (d + 1) (select_index stochastic (record :: records) d g).2)
      as (i & d' & g' & Hloop & Hd'); [lia..|].
    exists i, d', g'. split; [done|lia].
Qed.

Lemma retry_overflow_rounds stochastic records n d g :
  (∀ d g, select_index stochastic records d g = (-1, g)) →
  d ≤ INT_MAX → (Z.to_nat (INT_MAX - d) < n)%nat →
  loop_nat (retry_body stochastic records) n (d, g) = inl (fault SignedOverflow).
Proof.
  intros Hsel. revert d. induction n as [|n IH]; intros d Hd Hn; [lia|].
  cbn [loop_nat]. unfold retry_body at 1. rewrite Hsel. simpl.
  destruct (Z.ltb_spec d INT_MAX); [|done].
  apply IH; lia.
Qed.

(** No dimension makes a position whose count is [UINT_MAX] a candidate. *)
Lemma first_index_scan_saturated n dim depth :
  first_index_scan (replicate n (2 ^ 32 - 1)) dim depth = None.
Proof.
  revert depth. induction n as [|n IH]; intros depth; simpl; [done|].
  replace (size_diff _ _ _) with false; [apply IH|].
  symmetry. apply Z.ltb_ge.
  pose proof (to_uint_range (to_uint (depth + 1) * to_uint dim)). lia.
Qed.

(** ** The order of the keys and [begin] *)

Lemma key_ltb_irrefl a : key_ltb a a = false.
Proof.
  induction a as [|x a IH]; simpl; [done|].
  by rewrite Z.ltb_irrefl.
Qed.

Lemma key_ltb_trans a b c :
  key_ltb a b = true → key_ltb b c = true → key_ltb a c = true.
Proof.
  revert b c. induction a as [|x a IH]; intros [|y b] [|z c]; simpl; try done.
  destruct (Z.ltb_spec x y), (Z.ltb_spec y x), (Z.ltb_spec y z),
    (Z.ltb_spec z y), (Z.ltb_spec x z), (Z.ltb_spec z x);
    try done; try lia.
  apply IH.
Qed.

Lemma key_ltb_total a b :
  key_ltb a b = false → key_ltb b a = false → a = b.
Proof.
  revert b. induction a as [|x a IH]; intros [|y b]; simpl; try done.
  destruct (Z.ltb_spec x y), (Z.ltb_spec y x); try done.
  intros Hab Hba. f_equal; [lia|]. by apply IH.
Qed.

Section Begin.
Context {V : Type}.
Implicit Types (m : gmap Key V) (l : list (Key * V)).

Let least l : option (Key * V) :=
  foldr (λ kv least,
           match least with
           | None => Some kv
           | Some kv' => if key_ltb kv.1 kv'.1 then Some kv else Some kv'
           end) None l.

Lemma least_None l : least l = None → l = [].
Proof.
  destruct l as [|kv l]; [done|]. unfold least. simpl.
  destruct (foldr _ _ _) as [kv'|]; [|done]. by destruct (key_ltb _ _).
Qed.

Lemma least_spec l kv :
  least l = Some kv →
  kv ∈ l ∧ ∀ kv', kv' ∈ l → key_ltb kv'.1 kv.1 = false.
Proof.
  revert kv. induction l as [|kv0 l IH]; intros kv; [done|].
  change (least (kv0 :: l)) with
    (match least l with
     | None => Some kv0
     | Some kv' => if key_ltb kv0.1 kv'.1 then Some kv0 else Some kv'
     end).
  destruct (least l) as [kv1|] eqn:Hl.
  - destruct (IH _ eq_refl) as [Hin Hle].
    destruct (key_ltb kv0.1 kv1.1) eqn:Hlt; intros [= <-].
    + split; [left|]. intros kv' Hin'.
      apply elem_of_cons in Hin' as [->|Hin']; [apply key_ltb_irrefl|].
      destruct (key_ltb kv'.1 kv0.1) eqn:Hlt'; [|done].
      pose proof (key_ltb_trans _ _ _ Hlt' Hlt) as Htrans.
      by rewrite (Hle _ Hin') in Htrans.
    + split; [by right|]. intros kv' Hin'.
      apply elem_of_cons in Hin' as [->|Hin']; [done|exact (Hle _ Hin')].
  - intros [= <-]. apply least_None in Hl as ->.
    split; [left|]. intros kv' ->%list_elem_of_singleton. apply key_ltb_irrefl.
Qed.

(** [begin] is an entry of the map. *)
Lemma begin_lookup m k v : begin m = Some (k, v) → m !! k = Some v.
Proof. intros [Hin _]%least_spec. by apply elem_of_map_to_list. Qed.

(** No key of the map is below the key of [begin]. *)
Lemma begin_least m k v k' :
  begin m = Some (k, v) → is_Some (m !! k') → key_ltb k' k = false.
Proof.
  intros [_ Hle]%least_spec [v' Hv']. apply (Hle (k', v')).
  by apply elem_of_map_to_list.
Qed.

(** Only the empty map has no [begin]. *)
Lemma begin_None m : begin m = None → m = ∅.
Proof. intros Hl%least_None. by apply map_to_list_empty_iff. Qed.

Lemma begin_singleton k v : begin ({[k := v]} : gmap Key V) = Some (k, v).
Proof. unfold begin. by rewrite map_to_list_singleton. Qed.
End Begin.

(** ** [remove_min], step by step *)

Tactic Notation "bind_inv" hyp(H) "as" simple_intropattern(pat) "eqn" ":" ident(E) :=
  match type of H with
  | rbind ?m _ = ok _ =>
      destruct m as [?|pat] eqn:E; cbn [rbind] in H; [discriminate H|]
  end.

Section RemoveMinFacts.
Context {Entry : Type} `{!Sizeof Entry}.
Implicit Types (self : FractalOpenList Entry) (g : RandomNumberGenerator).

Lemma assert_ok b a (u : unit) : assert b a = inr u → b = true.
Proof. by destruct b. Qed.

Lemma or_fault_ok {A} (o : option A) f a : or_fault o f = inr a → o = Some a.
Proof. destruct o; [by intros [= ->]|done]. Qed.

(** What a call of [remove_min] that returns has done. *)
Lemma remove_min_inv key self g entry key' self' g' :
  remove_min key self g = ok (entry, key', self', g') →
  ∃ it_first tbuckets bucket_i dim g1 records label tbucket tbucket',
    0 < size self ∧
    begin (buckets self) = Some (it_first, tbuckets) ∧
    (key = None ∧ key' = None ∨ key = Some [] ∧ key' = Some it_first) ∧
    retry (stochastic self) (initial_records (records_of self it_first))
          (dimension_of self it_first) g = ok (bucket_i, dim, g1) ∧
    increment_record
      (grow_records (initial_records (records_of self it_first)) bucket_i)
      bucket_i = ok records ∧
    tbuckets !! Z.to_nat bucket_i = Some (label, tbucket) ∧
    entries tbucket ≠ [] ∧
    pop_bucket tbucket (queue_type self) g1 = ok (entry, tbucket', g') ∧
    self' =
      set_buckets
        (set_diversification (set_size self (size self - 1))
           (<[it_first := records]> (expansion_records self))
           (<[it_first := dim]> (current_dimension self)))
        (store_type_bucket it_first (Z.to_nat bucket_i) label tbucket'
           tbuckets (buckets self)).
Proof.
  unfold remove_min. intros H.
  bind_inv H as [] eqn:Hsize. apply assert_ok, Z.ltb_lt in Hsize.
  bind_inv H as [it_first tbuckets] eqn:Hbegin. apply or_fault_ok in Hbegin.
  bind_inv H as [] eqn:Hprimary.
  bind_inv H as key0 eqn:Hkey.
  bind_inv H as [[bucket_i dim] g1] eqn:Hretry.
  bind_inv H as records eqn:Hrecords.
  bind_inv H as [label tbucket] eqn:Hit2. apply or_fault_ok in Hit2.
  bind_inv H as [] eqn:Htbucket.
  apply assert_ok, negb_true_iff, bool_decide_eq_false in Htbucket.
  bind_inv H as [[entry0 tbucket'] g2] eqn:Hpop.
  injection H as <- <- <- <-.
  exists it_first, tbuckets, bucket_i, dim, g1, records, label, tbucket, tbucket'.
  repeat split; try done.
  - destruct key as [v|]; simpl in Hkey.
    + right. destruct (assert _ _) eqn:Hassert in Hkey; [done|].
      apply assert_ok, bool_decide_eq_true in Hassert.
      simpl in Hkey. injection Hkey as <-. by subst.
    + left. by injection Hkey as <-.
Qed.
End RemoveMinFacts.

(** ** Termination of the dimension loop *)

Lemma retry_overflows stochastic records dim g :
  (∀ d g, select_index stochastic records d g = (-1, g)) →
  dim ≤ INT_MAX →
  retry stochastic records dim g = fault SignedOverflow.
Proof.
  intros Hsel Hdim.
  rewrite retry_unary, retry_overflow_rounds;
    [reflexivity|exact Hsel|exact Hdim|].
  pose proof (retry_rounds_unary dim Hdim). lia.
Qed.

(** C6, the claim as stated fails: when every count is [UINT_MAX] no
    dimension makes a position a candidate, and the loop increments the
    dimension until it overflows. *)
Lemma retry_saturated_records_overflow :
  (∀ dim, first_index_with_size_diff (replicate 32 (2 ^ 32 - 1)) dim = -1) ∧
  retry false (replicate 32 (2 ^ 32 - 1)) 0 [] = fault SignedOverflow.
Proof.
  assert (∀ dim, first_index_with_size_diff (replicate 32 (2 ^ 32 - 1)) dim = -1)
    as Hnone.
  { intros dim. unfold first_index_with_size_diff.
    by rewrite first_index_scan_saturated. }
  split; [exact Hnone|].
  apply retry_overflows; [|unfold INT_MAX; lia].
  intros d g. unfold select_index. by rewrite Hnone.
Qed.

(** ** The diversification state *)

Section Diversification.
Context {Entry : Type} `{!Sizeof Entry}.
Implicit Types (self : FractalOpenList Entry) (g : RandomNumberGenerator).

Lemma initial_records_nonneg records :
  Forall (λ record, 0 ≤ record) records →
  Forall (λ record, 0 ≤ record) (initial_records records).
Proof.
  intros Hrec. unfold initial_records. case_decide; [|done].
  by apply Forall_replicate.
Qed.

Lemma initial_records_nonempty records : initial_records records ≠ [].
Proof. unfold initial_records. by case_decide. Qed.

Lemma grow_records_nonneg records bucket_i :
  Forall (λ record, 0 ≤ record) records →
  Forall (λ record, 0 ≤ record) (grow_records records bucket_i).
Proof.
  intros Hrec. unfold grow_records. destruct (_ <=? _); [|done].
  apply Forall_app. split; [done|]. by apply Forall_replicate.
Qed.

Lemma increment_record_nonneg records bucket_i records' :
  increment_record records bucket_i = ok records' →
  Forall (λ record, 0 ≤ record) records →
  Forall (λ record, 0 ≤ record) records'.
Proof.
  unfold increment_record. destruct (records !! _) as [count|]; [|done].
  intros [= <-] Hrec. apply Forall_insert; [done|]. apply to_uint_range.
Qed.

(** [insert] does not touch the diversification state. *)
Lemma insert_diversification (eval_context : EvaluationContext)
    (entry : Entry) self :
  expansion_records (insert eval_context entry self).1.1
    = expansion_records self ∧
  current_dimension (insert eval_context entry self).1.1
    = current_dimension self.
Proof.
  unfold insert. simpl.
  destruct (only_preferred self && negb (is_preferred eval_context)); [done|].
  by destruct (dead_end eval_context).
Qed.

Lemma insert_configuration (eval_context : EvaluationContext)
    (entry : Entry) self :
  stochastic (insert eval_context entry self).1.1 = stochastic self ∧
  queue_type (insert eval_context entry self).1.1 = queue_type self.
Proof.
  unfold insert. simpl.
  destruct (only_preferred self && negb (is_preferred eval_context)); [done|].
  by destruct (dead_end eval_context).
Qed.

(** The diversification state that a returning [remove_min] stores for
    the key it popped from; the other keys keep theirs. *)
Lemma remove_min_diversification key self g entry key' self' g'
    it_first tbuckets :
  remove_min key self g = ok (entry, key', self', g') →
  begin (buckets self) = Some (it_first, tbuckets) →
  ∃ bucket_i dim g0 g1 records,
    expansion_records self' = <[it_first := records]> (expansion_records self) ∧
    current_dimension self' = <[it_first := dim]> (current_dimension self) ∧
    dimension_of self it_first ≤ dim ∧ 0 ≤ bucket_i ∧
    select_index (stochastic self)
      (initial_records (records_of self it_first)) dim g0 = (bucket_i, g1) ∧
    increment_record
      (grow_records (initial_records (records_of self it_first)) bucket_i)
      bucket_i = ok records ∧
    ∃ g2, retry (stochastic self) (initial_records (records_of self it_first))
                (dimension_of self it_first) g = ok (bucket_i, dim, g2).
Proof.
  intros Hrm Hbegin.
  apply remove_min_inv in Hrm
    as (k & tbs & i & dim & g1 & records & label & tb & tb' & _ & Hbegin' &
        _ & Hretry & Hincr & _ & _ & _ & ->).
  rewrite Hbegin in Hbegin'. injection Hbegin' as <- <-.
  pose proof Hretry as Hretry'.
  apply retry_selects in Hretry as (Hdim & Hi & g0 & Hsel).
  exists i, dim, g0, g1, records. repeat split; [done..|]. by exists g1.
Qed.

Lemma remove_min_configuration key self g entry key' self' g' :
  remove_min key self g = ok (entry, key', self', g') →
  stochastic self' = stochastic self ∧ queue_type self' = queue_type self.
Proof.
  intros Hrm.
  by apply remove_min_inv in Hrm
    as (k & tbs & i & dim & g1 & records & label & tb & tb' & _ & _ &
        _ & _ & _ & _ & _ & _ & ->).
Qed.

Lemma new_FractalOpenList_wf pref_only queue stoch depth self :
  new_FractalOpenList pref_only queue stoch depth = Some self →
  diversification_wf self.
Proof.
  unfold new_FractalOpenList. destruct (0 <? depth); [|done].
  intros [= <-] key. unfold dimension_of, records_of. simpl.
  by rewrite !lookup_empty.
Qed.

Lemma insert_wf (eval_context : EvaluationContext) (entry : Entry) self :
  diversification_wf self →
  diversification_wf (insert eval_context entry self).1.1.
Proof.
  intros Hwf key. unfold dimension_of, records_of.
  destruct (insert_diversification eval_context entry self) as [-> ->].
  apply Hwf.
Qed.

Lemma remove_min_wf key self g entry key' self' g' :
  remove_min key self g = ok (entry, key', self', g') →
  diversification_wf self → diversification_wf self'.
Proof.
  intros Hrm Hwf.
  pose proof Hrm as Hinv. apply remove_min_inv in Hinv
    as (k & tbs & _ & _ & _ & _ & _ & _ & _ & _ & Hbegin & _).
  destruct (remove_min_diversification _ _ _ _ _ _ _ _ _ Hrm Hbegin)
    as (i & dim & g0 & g1 & records & Hrec & Hdim & Hle & _ & _ & Hincr & g2 & Hretry).
  intros key0. unfold dimension_of, records_of. rewrite Hrec, Hdim.
  destruct (decide (k = key0)) as [<-|Hne].
  - rewrite !lookup_insert_eq. simpl. split.
    + destruct (Hwf k). lia.
    + eapply increment_record_nonneg; [exact Hincr|].
      apply grow_records_nonneg, initial_records_nonneg, Hwf.
  - rewrite !lookup_insert_ne by done. apply Hwf.
Qed.

Lemma reachable_wf self : reachable self → diversification_wf self.
Proof.
  induction 1; eauto using new_FractalOpenList_wf, insert_wf, remove_min_wf.
Qed.

Lemma grow_records_lookup records bucket_i p count :
  records !! p = Some count → grow_records records bucket_i !! p = Some count.
Proof.
  intros Hp. unfold grow_records. destruct (_ <=? _); [|done].
  by apply lookup_app_l_Some.
Qed.

Lemma increment_record_lookup records bucket_i records' p count :
  increment_record records bucket_i = ok records' →
  records !! p = Some count →
  records' !! p = Some count ∨ records' !! p = Some (to_uint (count + 1)).
Proof.
  unfold increment_record.
  destruct (records !! Z.to_nat bucket_i) as [c|] eqn:Hi; [|done].
  intros [= <-] Hp. destruct (decide (p = Z.to_nat bucket_i)) as [->|Hne].
  - right. rewrite list_lookup_insert_eq by (by eapply lookup_lt_Some).
    congruence.
  - left. by rewrite list_lookup_insert_ne.
Qed.

(** Along a run no dimension decreases and no key loses its
    diversification state. *)
Lemma run_diversification (ops : list (Operation Entry)) self g popped self' g' :
  run ops self g = (popped, ok (self', g')) →
  ∀ key,
    dimension_of self key ≤ dimension_of self' key ∧
    (is_Some (current_dimension self !! key) →
     is_Some (current_dimension self' !! key)) ∧
    (is_Some (expansion_records self !! key) →
     is_Some (expansion_records self' !! key)).
Proof.
  revert self g popped. induction ops as [|op ops IH]; intros self g popped.
  - intros [= <- <- <-] key. by split.
  - destruct op as [eval_context entry|key0]; cbn [run].
    + intros Hrun key. apply IH with (key := key) in Hrun. revert Hrun.
      unfold dimension_of.
      by destruct (insert_diversification eval_context entry self) as [-> ->].
    + destruct (remove_min key0 self g) as [f|[[[entry key'] self1] g1]] eqn:Hrm;
        [done|].
      destruct (run ops self1 g1) as [popped1 final] eqn:Hrun.
      intros [= <- ->] key. apply IH with (key := key) in Hrun.
      pose proof Hrm as Hinv. apply remove_min_inv in Hinv
        as (k & tbs & _ & _ & _ & _ & _ & _ & _ & _ & Hbegin & _).
      destruct (remove_min_diversification _ _ _ _ _ _ _ _ _ Hrm Hbegin)
        as (i & dim & g0 & g2 & records & Hrec & Hdim & Hle & _).
      revert Hrun. unfold dimension_of. rewrite Hrec, Hdim.
      destruct (decide (k = key)) as [<-|Hne].
      * rewrite !lookup_insert_eq. unfold dimension_of in Hle. simpl.
        intros (Hmono & Hd & Hr). split; [lia|]. split; eauto.
      * by rewrite !lookup_insert_ne.
Qed.

(** C10: a key that no [remove_min] has touched has dimension 0, in a new
    list and in any other; with dimension 0 neither selector finds a
    candidate among non-negative counts; so the loop of [remove_min]
    entered with dimension 0 leaves with a dimension of at least 1, and
    after every call of [remove_min] that returns, on a reachable list,
    the dimension stored for the key it popped from is at least 1. *)
Theorem first_selection_raises_dimension :
  (∀ pref_only queue stoch depth self key,
     new_FractalOpenList pref_only queue stoch depth = Some self →
     dimension_of self key = 0) ∧
  (∀ self key,
     current_dimension self !! key = None → dimension_of self key = 0) ∧
  (∀ stochastic records g,
     Forall (λ record, 0 ≤ record) records → records ≠ [] →
     select_index stochastic records 0 g = (-1, g)) ∧
  (∀ stochastic records g bucket_i dim g',
     Forall (λ record, 0 ≤ record) records → records ≠ [] →
     retry stochastic records 0 g = ok (bucket_i, dim, g') → 1 ≤ dim) ∧
  (∀ self key g entry key' self' g' it_first tbuckets,
     reachable self →
     remove_min key self g = ok (entry, key', self', g') →
     begin (buckets self) = Some (it_first, tbuckets) →
     1 ≤ dimension_of self' it_first).
Proof.
  split; [|split; [|split; [|split]]].
  - intros pref_only queue stoch depth self key.
    unfold new_FractalOpenList. destruct (0 <? depth); [|done].
    intros [= <-]. unfold dimension_of. simpl. by rewrite lookup_empty.
  - intros self key Hnone. unfold dimension_of. by rewrite Hnone.
  - intros stochastic0 records g. apply select_index_dim_0.
  - intros stochastic0 records g i dim g' Hrec Hne Hretry.
    apply retry_selects in Hretry as (Hdim & Hi & g0 & Hsel).
    destruct (decide (dim = 0)) as [->|]; [|lia].
    rewrite select_index_dim_0 in Hsel by done.
    injection Hsel as <- _. lia.
  - intros self key g entry key' self' g' k tbs Hreach Hrm Hbegin.
    apply reachable_wf in Hreach.
    destruct (remove_min_diversification _ _ _ _ _ _ _ _ _ Hrm Hbegin)
      as (i & dim & g0 & g1 & records & _ & Hdim & Hle & Hi & Hsel & _).
    unfold dimension_of at 1. rewrite Hdim, lookup_insert_eq. simpl.
    destruct (Hreach k) as [Hd Hrec].
    destruct (decide (dim = 0)) as [->|]; [|lia].
    rewrite select_index_dim_0 in Hsel
      by auto using initial_records_nonneg, initial_records_nonempty.
    injection Hsel as <- _. lia.
Qed.

(** C5: along any sequence of calls of [insert] and [remove_min] the
    dimension stored for a key never decreases and no key loses its
    dimension or its usage-count array; a call of [remove_min] that
    returns leaves, for the key it popped from, a dimension not below the
    old one and the old counts with one of them incremented, whether or
    not it erased the key's primary bucket; and [insert] changes neither,
    so that entries inserted later under the same key meet the state that
    was left. *)
Theorem dimension_monotone_and_persistent :
  (∀ (ops : list (Operation Entry)) self g popped self' g' key,
     run ops self g = (popped, ok (self', g')) →
     dimension_of self key ≤ dimension_of self' key ∧
     (is_Some (current_dimension self !! key) →
      is_Some (current_dimension self' !! key)) ∧
     (is_Some (expansion_records self !! key) →
      is_Some (expansion_records self' !! key))) ∧
  (∀ self key g entry key' self' g' it_first tbuckets,
     remove_min key self g = ok (entry, key', self', g') →
     begin (buckets self) = Some (it_first, tbuckets) →
     ∃ bucket_i dim g1 records,
       retry (stochastic self) (initial_records (records_of self it_first))
             (dimension_of self it_first) g = ok (bucket_i, dim, g1) ∧
       current_dimension self' !! it_first = Some dim ∧
       dimension_of self it_first ≤ dim ∧
       expansion_records self' !! it_first = Some records ∧
       records ≠ [] ∧
       ∀ p count,
         records_of self it_first !! p = Some count →
         records !! p = Some count ∨
         records !! p = Some (to_uint (count + 1))) ∧
  (∀ (eval_context : EvaluationContext) (entry : Entry) self key,
     records_of (insert eval_context entry self).1.1 key
       = records_of self key ∧
     dimension_of (insert eval_context entry self).1.1 key
       = dimension_of self key).
Proof.
  split; [|split].
  - intros ops self g popped self' g' key Hrun.
    by apply (run_diversification ops self g popped self' g').
  - intros self key g entry key' self' g' k tbs Hrm Hbegin.
    destruct (remove_min_diversification _ _ _ _ _ _ _ _ _ Hrm Hbegin)
      as (i & dim & g0 & g1 & records & Hrec & Hdim & Hle & _ & _ & Hincr & g2 & Hretry).
    exists i, dim, g2, records. rewrite Hrec, Hdim, !lookup_insert_eq.
    split; [exact Hretry|].
    repeat split; [done|..].
    + intros ->. unfold increment_record in Hincr.
      destruct (_ !! Z.to_nat i) as [c|] eqn:Hi; [|done].
      injection Hincr as Hincr. apply lookup_lt_Some in Hi.
      apply (f_equal length) in Hincr. rewrite length_insert in Hincr.
      simpl in Hincr. lia.
    + intros p count Hp.
      eapply increment_record_lookup; [exact Hincr|].
      apply grow_records_lookup. unfold initial_records.
      case_decide as Hnil; [|done]. by rewrite Hnil in Hp.
  - intros eval_context entry self key. unfold records_of, dimension_of.
    by destruct (insert_diversification eval_context entry self) as [-> ->].
Qed.
End Diversification.

(** In a stochastic list that holds one entry, a draw of 0 pops it: the
    primary bucket of key [[3]] is erased, and the key keeps dimension 1 and
    its 32 counts, the first of them now 1. *)
Lemma dimension_monotone_and_persistent_witness :
  ∃ self' : FractalOpenList nat,
    remove_min None (example_single FIFO true) [0%nat]
      = ok (7%nat, None, self', []) ∧
    buckets self' !! [3] = None ∧
    ∃ bucket_i dim g1 records,
      retry (stochastic (example_single FIFO true))
            (initial_records (records_of (example_single FIFO true) [3]))
            (dimension_of (example_single FIFO true) [3]) [0%nat]
        = ok (bucket_i, dim, g1) ∧
      current_dimension self' !! [3] = Some dim ∧
      dimension_of (example_single FIFO true) [3] ≤ dim ∧
      expansion_records self' !! [3] = Some records ∧
      records ≠ [] ∧
      ∀ p count,
        records_of (example_single FIFO true) [3] !! p = Some count →
        records !! p = Some count ∨ records !! p = Some (to_uint (count + 1)).
Proof.
  eexists. split; [vm_compute; reflexivity|].
  split; [vm_compute; reflexivity|].
  eapply (proj1 (proj2 dimension_monotone_and_persistent)
            (example_single FIFO true) None [0%nat]);
    vm_compute; reflexivity.
Defined.

(** The state that was left is met again: key [[3]] is emptied, filled
    again and popped again, with draws of 0; its dimension is still 1 and
    its first count goes on from 1 to 2. *)
Example diversification_reused_after_repopulation :
  ∃ self' : FractalOpenList nat,
    run [Insert (example_context [3] 0) 7%nat; RemoveMin None;
         Insert (example_context [3] 0) 8%nat; RemoveMin None]
        (example_new FIFO true) [0; 0]%nat
      = ([7; 8]%nat, ok (self', [])) ∧
    buckets self' = ∅ ∧
    dimension_of self' [3] = 1 ∧
    records_of self' [3] = 2 :: replicate 31 0.
Proof.
  eexists. split; [vm_compute; reflexivity|].
  repeat split; vm_compute; reflexivity.
Qed.

(** In a deterministic list whose key [[3]] has two type buckets, the first
    call of [remove_min] returns and leaves key [[3]] with dimension 1. *)
Lemma first_selection_raises_dimension_witness :
  ∃ self' : FractalOpenList nat,
    remove_min None (example_two_types FIFO false) []
      = ok (1%nat, None, self', []) ∧
    1 ≤ dimension_of self' [3].
Proof.
  eexists. split; [vm_compute; reflexivity|].
  eapply (proj2 (proj2 (proj2 (proj2 first_selection_raises_dimension)))
            (example_two_types FIFO false) None []).
  - unfold example_two_types, example_single.
    do 4 apply reachable_insert.
    by apply (reachable_new false FIFO false 1000000).
  - vm_compute; reflexivity.
  - vm_compute; reflexivity.
Defined.

(** ** The queue disciplines *)

Section QueueDisciplines.
Context {Entry : Type} `{!Sizeof Entry}.
Implicit Types (bucket : Bucket Entry) (g : RandomNumberGenerator).

(** Under FIFO a pop returns the front and leaves the rest, unless the
    front is the last slot of its node: the node is then freed before the
    entry is read. *)
Lemma pop_bucket_FIFO slot entry l g :
  S slot ≠ deque_buf_size sizeof →
  pop_bucket {| front_slot := slot; entries := entry :: l |} FIFO g
    = ok (entry, {| front_slot := S slot; entries := l |}, g).
Proof.
  intros Hslot. unfold pop_bucket, pop_front, front_node_freed.
  cbn [front_slot entries]. by rewrite bool_decide_eq_false_2.
Qed.

Lemma pop_bucket_FIFO_freed slot entry l g :
  S slot = deque_buf_size sizeof →
  pop_bucket {| front_slot := slot; entries := entry :: l |} FIFO g
    = fault UseAfterFree.
Proof.
  intros Hslot. unfold pop_bucket, pop_front, front_node_freed.
  cbn [front_slot entries]. by rewrite bool_decide_eq_true_2.
Qed.

(** Under LIFO a pop returns the back and leaves the rest. *)
Lemma pop_bucket_LIFO slot entry l g :
  pop_bucket {| front_slot := slot; entries := l ++ [entry] |} LIFO g
    = ok (entry, {| front_slot := slot; entries := l |}, g).
Proof.
  unfold pop_bucket, back_slot, pop_back. cbn [front_slot entries].
  rewrite length_app, Nat.add_1_r, removelast_last. simpl.
  by rewrite lookup_app_r, Nat.sub_diag by lia.
Qed.

(** Under FIFO and LIFO the generator plays no part. *)
Lemma pop_bucket_deterministic bucket queue_type g g0 :
  queue_type ≠ RANDOM →
  pop_bucket bucket queue_type g
    = set_generator g (pop_bucket bucket queue_type g0).
Proof.
  intros Hqueue. destruct queue_type; [| |done]; unfold pop_bucket;
    destruct (_ !! _); try done.
  by destruct (front_node_freed bucket).
Qed.

(** What a pop removes: under FIFO the front, under LIFO the back. *)
Lemma pop_bucket_FIFO_inv bucket g entry bucket' g' :
  pop_bucket bucket FIFO g = ok (entry, bucket', g') →
  entries bucket = entry :: entries bucket' ∧ g' = g ∧
  front_slot bucket' = S (front_slot bucket) ∧
  S (front_slot bucket) ≠ deque_buf_size sizeof.
Proof.
  destruct bucket as [slot [|e l]]; [done|].
  unfold pop_bucket, pop_front, front_node_freed. cbn [front_slot entries].
  case_bool_decide as Hslot; [done|]. by intros [= -> <- ->].
Qed.

Lemma pop_bucket_LIFO_inv bucket g entry bucket' g' :
  pop_bucket bucket LIFO g = ok (entry, bucket', g') →
  entries bucket = entries bucket' ++ [entry] ∧ g' = g ∧
  front_slot bucket' = front_slot bucket.
Proof.
  destruct bucket as [slot l].
  destruct l as [|e l _] using rev_ind; [done|].
  rewrite pop_bucket_LIFO. by intros [= -> <- ->].
Qed.

(** In every discipline the entry returned was in the queue. *)
Lemma pop_bucket_elem_of bucket queue_type g entry bucket' g' :
  pop_bucket bucket queue_type g = ok (entry, bucket', g') →
  entry ∈ entries bucket.
Proof.
  destruct queue_type.
  - intros (-> & _)%pop_bucket_FIFO_inv. by left.
  - intros (-> & _)%pop_bucket_LIFO_inv. apply elem_of_app. right. by left.
  - unfold pop_bucket. destruct (g_rng _ g) as [i g0].
    destruct (entries bucket !! back_slot bucket) as [last|] eqn:Hlast; [|done].
    cbn [or_fault rbind ok].
    destruct (<[Z.to_nat i:=last]> (entries bucket) !! Z.to_nat i)
      as [e|] eqn:Hslot; [|done].
    intros [= <- _ _].
    apply list_lookup_insert_Some in Hslot as [(_ & -> & _)|[? _]]; [|done].
    by eapply list_elem_of_lookup_2.
Qed.

(** The entry of a type bucket is pushed at the back of its queue; a
    label that is new gets a type bucket at the end. *)
Lemma push_typed_found label entry bucket (tbuckets : TypeBuckets Entry) :
  push_typed label entry ((label, bucket) :: tbuckets)
    = (label, push_back entry bucket) :: tbuckets.
Proof. unfold push_typed. simpl. by rewrite decide_True. Qed.

Lemma push_typed_new label (entry : Entry) :
  push_typed label entry [] = [(label, push_back entry new_bucket)].
Proof. reflexivity. Qed.

(** The list after an insertion that is not filtered. *)
Lemma insert_buckets (eval_context : EvaluationContext) (entry : Entry)
    (self : FractalOpenList Entry) :
  only_preferred self && negb (is_preferred eval_context) = false →
  dead_end eval_context = false →
  let self' := (insert eval_context entry self).1.1 in
  self' = typed_do_insertion eval_context entry self.
Proof.
  intros Hpref Hdead. unfold insert. cbn -[typed_do_insertion].
  by rewrite Hpref, Hdead.
Qed.
End QueueDisciplines.

(** C3, the code loses an entry: under RANDOM the reference returned by
    [pop_bucket] is bound to the drawn slot before the back is copied into
    it, so the entry read through it is the back.  With a draw of 0 on the
    queue 1, 2, 3 the pop returns 3 and leaves 3, 2: entry 1 is gone and
    entry 3 is still queued.  After a second pop, entries 3 and 2 have been
    returned and entry 2 is what is left, so that no further pop can make
    the entries returned the multiset that was inserted; popping until the
    queue is empty returns 3, 2, 2. *)
Theorem pop_bucket_RANDOM_loses_entry slot :
  let deque l := {| front_slot := slot; entries := l |} in
  pop_bucket (deque [1; 2; 3]%nat) RANDOM [0%nat]
    = ok (3%nat, deque [3; 2]%nat, []) ∧
  pop_all 2 (deque [1; 2; 3]%nat) RANDOM [0; 0]%nat
    = ok ([3; 2]%nat, deque [2]%nat, []) ∧
  pop_all 3 (deque [1; 2; 3]%nat) RANDOM [0; 0; 0]%nat
    = ok ([3; 2; 2]%nat, deque [], []) ∧
  ¬ [3; 2; 2]%nat ≡ₚ [1; 2; 3]%nat.
Proof.
  split; [reflexivity|]. split; [reflexivity|]. split; [reflexivity|].
  intros Hperm. assert (1%nat ∈ [3; 2; 2]%nat) as Hin.
  { rewrite Hperm. by left. }
  repeat (apply elem_of_cons in Hin as [Hin|Hin]; [discriminate Hin|]).
  by apply elem_of_nil in Hin.
Qed.

(** ** The index selectors against the specification *)

(** As long as no product wraps, the ranks the stochastic selector
    collects are the ranks of the candidates of the specification, counted
    from [depth]. *)
Lemma collect_indices_spec records dim depth rank :
  0 ≤ depth → 0 ≤ dim →
  depth + Z.of_nat (length records) < 2 ^ 31 →
  (depth + Z.of_nat (length records)) * dim < 2 ^ 32 →
  rank ∈ collect_indices records dim depth ↔
  ∃ p count, records !! p = Some count ∧ rank = depth + Z.of_nat p + 1 ∧
             count < rank * dim.
Proof.
  revert depth. induction records as [|record records IH];
    intros depth Hdepth Hdim Hlen Hmul.
  { simpl. split; [by intros ?%elem_of_nil|by intros (p & count & ? & _)]. }
  cbn [collect_indices]. cbn [length] in Hlen, Hmul.
  rewrite Nat2Z.inj_succ in Hlen, Hmul.
  assert (dim < 2 ^ 32) as Hdim' by nia.
  assert ((depth + 1) * dim < 2 ^ 32) as Hprod by nia.
  rewrite (to_uint_small (depth + 1)) by lia.
  assert (size_diff (depth + 1) dim record = true ↔ record < (depth + 1) * dim)
    as Hdiff.
  { rewrite size_diff_spec, (to_uint_small dim), to_uint_small by nia. done. }
  assert (rank ∈ collect_indices records dim (depth + 1) ↔
          ∃ p count, records !! p = Some count ∧
                     rank = depth + Z.of_nat (S p) + 1 ∧ count < rank * dim)
    as Htail.
  { rewrite IH by lia.
    split; intros (p & count & Hp & -> & Hlt); exists p, count;
      (split; [done|]); (split; [lia|]).
    - by replace (depth + Z.of_nat (S p) + 1)
        with (depth + 1 + Z.of_nat p + 1) by lia.
    - by replace (depth + 1 + Z.of_nat p + 1)
        with (depth + Z.of_nat (S p) + 1) by lia. }
  assert ((∃ p count, (record :: records) !! p = Some count ∧
                      rank = depth + Z.of_nat p + 1 ∧ count < rank * dim) ↔
          (rank = depth + 1 ∧ record < (depth + 1) * dim) ∨
          rank ∈ collect_indices records dim (depth + 1)) as ->.
  { rewrite Htail. split.
    - intros ([|p] & count & Hp & -> & Hlt).
      + left. injection Hp as <-. split; [lia|].
        by replace (depth + 1) with (depth + Z.of_nat 0 + 1) by lia.
      + right. by exists p, count.
    - intros [[-> Hlt]|(p & count & Hp & Hrank & Hlt)].
      + exists 0%nat, record. repeat split; [lia|].
        by replace (depth + Z.of_nat 0 + 1) with (depth + 1) by lia.
      + by exists (S p), count. }
  destruct (size_diff (depth + 1) dim record).
  - rewrite elem_of_cons, to_int_small by lia. split.
    + intros [->|Hin]; [left|by right]. split; [done|by apply Hdiff].
    + intros [[-> _]|Hin]; [by left|by right].
  - split; [by right|]. intros [[_ Hlt]|Hin]; [|done].
    apply Hdiff in Hlt. discriminate Hlt.
Qed.

(** The candidates the stochastic selector collects are those of the
    specification. *)
Lemma collect_indices_candidates records dim rank :
  0 ≤ dim → Z.of_nat (length records) < 2 ^ 31 →
  Z.of_nat (length records) * dim < 2 ^ 32 →
  rank ∈ collect_indices records dim 0 ↔
  ∃ p, rank = spec_rank p ∧ spec_candidate records dim p.
Proof.
  intros Hdim Hlen Hmul. rewrite collect_indices_spec by lia.
  unfold spec_candidate, spec_rank. split.
  - intros (p & count & Hp & -> & Hlt). exists p. split; [lia|].
    exists count. split; [done|]. lia.
  - intros (p & -> & count & Hp & Hgt). exists p, count.
    split; [done|]. split; lia.
Qed.

(** C2, the code returns the draw, not the rank at the draw: with counts 5,
    0, 0, ... and dimension 1 the candidates are the positions 1 to 31 (the
    ranks 2 to 32), and on a draw of 0 the stochastic selector returns 0,
    which is neither the rank nor the position of a candidate. *)
Theorem random_index_returns_draw_not_rank :
  collect_indices (5 :: replicate 31 0) 1 0 = Z.of_nat <$> seq 2 31 ∧
  random_index_with_size_diff (5 :: replicate 31 0) 1 [0%nat] = (0, []) ∧
  ∀ p, spec_candidate (5 :: replicate 31 0) 1 p →
       0 ≠ spec_rank p ∧ 0 ≠ Z.of_nat p.
Proof.
  split; [reflexivity|]. split; [reflexivity|].
  intros p (count & Hp & Hgt). unfold spec_rank in *.
  destruct p as [|p]; [|lia].
  injection Hp as <-. lia.
Qed.

(** ** Selection *)

(** C1, the code selects a position without a type bucket: in a list that
    holds one entry, so that the least key has one live type bucket, the
    dimension loop leaves with index 1 in deterministic mode, and with index
    5 in stochastic mode on a draw of 5; [remove_min] then addresses
    [tbuckets.begin() + 1] and [tbuckets.begin() + 5]. *)
Theorem remove_min_selects_dead_position :
  begin (buckets (example_single FIFO false))
    = Some ([3], [(0, {| front_slot := 0; entries := [7%nat] |})]) ∧
  retry false (initial_records (records_of (example_single FIFO false) [3]))
        (dimension_of (example_single FIFO false) [3]) [] = ok (1, 1, []) ∧
  remove_min None (example_single FIFO false) [] = fault (NoLiveTypeBucket 1 1) ∧
  retry true (initial_records (records_of (example_single FIFO true) [3]))
        (dimension_of (example_single FIFO true) [3]) [5%nat] = ok (5, 1, []) ∧
  remove_min None (example_single FIFO true) [5%nat]
    = fault (NoLiveTypeBucket 5 1).
Proof. repeat split; vm_compute; reflexivity. Qed.

(** C4, the code returns no entry: one entry is inserted into a new
    deterministic FIFO list and [remove_min] is called with an empty key
    slot; nothing is popped, the call ends in the selection of position 1
    of a single type bucket. *)
Theorem remove_min_single_entry_faults :
  run [Insert (example_context [3] 0) 7%nat; RemoveMin (Some [])]
      (example_new FIFO false) []
    = ([], fault (NoLiveTypeBucket 1 1)).
Proof. vm_compute; reflexivity. Qed.

(** ** The insertion filter *)

Section InsertFilter.
Context `{OpenList Self Context Entry}.

(** C7: [insert] leaves the list as it is, and does not call
    [do_insertion], when the list is preferred-only and the context is not
    preferred, or when [is_dead_end] holds of the context; in every other
    case it calls [do_insertion] once, with the entry and the context that
    [is_dead_end] left, and the list is the one that call returns. *)
Theorem insert_filter (eval_context : Context) (entry : Entry) (self : Self) :
  let filtered :=
    get_only_preferred self && negb (context_is_preferred eval_context) in
  let dead := (is_dead_end self eval_context).1 in
  let eval_context' := (is_dead_end self eval_context).2 in
  (filtered = true →
   insert eval_context entry self = (self, eval_context, [])) ∧
  (filtered = false → dead = true →
   insert eval_context entry self = (self, eval_context', [])) ∧
  (filtered = false → dead = false →
   insert eval_context entry self =
     (do_insertion eval_context' entry self, [(eval_context', entry)])).
Proof.
  unfold insert. simpl.
  destruct (get_only_preferred self && negb (context_is_preferred eval_context)).
  - by repeat split.
  - destruct (is_dead_end self eval_context) as [dead eval_context'].
    simpl. split; [done|]. split; intros _ ->; [done|].
    simpl. by destruct (do_insertion eval_context' entry self).
Qed.
End InsertFilter.

(** On a preferred-only fractal list a context that is not preferred
    changes nothing; a context that is preferred and no dead end has its
    entry filed by one call of [do_insertion]. *)
Lemma insert_filter_witness :
  insert example_unpreferred 7%nat example_preferred_only
    = (example_preferred_only, example_unpreferred, []) ∧
  insert (example_context [3] 0) 7%nat example_preferred_only
    = (do_insertion (example_context [3] 0) 7%nat example_preferred_only,
       [(example_context [3] 0, 7%nat)]).
Proof.
  split.
  - apply (proj1 (insert_filter example_unpreferred 7%nat example_preferred_only)).
    reflexivity.
  - exact (proj2 (proj2 (insert_filter (example_context [3] 0) 7%nat
                           example_preferred_only)) eq_refl eq_refl).
Defined.

(** ** Runs without the generator *)

Lemma retry_body_deterministic records dim g g0 :
  retry_body false records (dim, g) =
  match retry_body false records (dim, g0) with
  | inl selection => inl (set_generator g selection)
  | inr (dim', _) => inr (dim', g)
  end.
Proof.
  unfold retry_body, select_index.
  destruct (first_index_with_size_diff records dim <? 0); [|done].
  by destruct (dim <? INT_MAX).
Qed.

Lemma loop_nat_retry_deterministic records n dim g g0 :
  loop_nat (retry_body false records) n (dim, g) =
  match loop_nat (retry_body false records) n (dim, g0) with
  | inl selection => inl (set_generator g selection)
  | inr (dim', _) => inr (dim', g)
  end.
Proof.
  revert dim g0. induction n as [|n IH]; intros dim g0; [done|].
  cbn [loop_nat]. rewrite (retry_body_deterministic records dim g g0).
  destruct (retry_body false records (dim, g0)) as [selection|[dim' g']];
    [done|apply IH].
Qed.

(** In deterministic mode the dimension loop does not consult the
    generator: it returns the one it was given, and the same index and
    dimension whatever that generator is. *)
Lemma retry_deterministic records dim g g0 :
  retry false records dim g = set_generator g (retry false records dim g0).
Proof.
  rewrite !retry_unary.
  rewrite (loop_nat_retry_deterministic records _ dim g g0).
  by destruct (loop_nat _ _ (dim, g0)) as [selection|[dim' g']].
Qed.

Section Deterministic.
Context {Entry : Type} `{!Sizeof Entry}.
Implicit Types (self : FractalOpenList Entry) (g : RandomNumberGenerator).

Lemma remove_min_deterministic key self g g0 :
  stochastic self = false → queue_type self ≠ RANDOM →
  remove_min key self g = set_generator g (remove_min key self g0).
Proof.
  intros Hstoch Hqueue. unfold remove_min.
  destruct (assert _ SizePositive) as [|[]]; [done|]. cbn [rbind].
  destruct (or_fault (begin _) _) as [|[it_first tbuckets]]; [done|].
  cbn [rbind].
  destruct (assert _ PrimaryBucketNonEmpty) as [|[]]; [done|]. cbn [rbind].
  destruct (match key with None => _ | Some _ => _ end) as [|key1]; [done|].
  cbn [rbind]. cbn [stochastic queue_type set_size set_diversification].
  rewrite Hstoch.
  rewrite (retry_deterministic _ _ g g0).
  destruct (retry false _ _ g0) as [|[[bucket_i dim] g1]]; [reflexivity|].
  cbn [rbind set_generator fst ok].
  destruct (increment_record _ _) as [|records]; [done|]. cbn [rbind].
  destruct (or_fault (tbuckets !! _) _) as [|[label tbucket]]; [done|].
  cbn [rbind].
  destruct (assert _ TypeBucketNonEmpty) as [|[]]; [done|]. cbn [rbind].
  rewrite (pop_bucket_deterministic tbucket _ g g1) by done.
  by destruct (pop_bucket tbucket _ g1) as [|[[entry tbucket'] g2]].
Qed.

Lemma run_deterministic (ops : list (Operation Entry)) self g g0 :
  stochastic self = false → queue_type self ≠ RANDOM →
  run ops self g
    = ((run ops self g0).1, set_generator g (run ops self g0).2).
Proof.
  revert self g0. induction ops as [|op ops IH]; intros self g0 Hstoch Hqueue.
  - done.
  - destruct op as [eval_context entry|key]; cbn [run].
    + destruct (insert_configuration eval_context entry self) as [Hs Hq].
      apply IH; congruence.
    + rewrite (remove_min_deterministic key self g g0) by done.
      destruct (remove_min key self g0)
        as [f|[[[entry key'] self'] g1]] eqn:Hrm; [done|].
      cbn [set_generator rbind ok fst].
      destruct (remove_min_configuration _ _ _ _ _ _ _ Hrm) as [Hs Hq].
      rewrite (IH self' g1) by congruence.
      by destruct (run ops self' g1) as [popped final].
Qed.
End Deterministic.

(** C9, as amended: with [stochastic = false] and the FIFO or the LIFO
    discipline, two runs of the same calls on the same list pop the same
    entries and end in the same fault or the same list, whatever their
    generators are, and each run returns its generator as it was given; in
    every discipline the deterministic type-bucket selection of [remove_min]
    returns the generator it was given and an index that does not depend on
    it. *)
Theorem deterministic_run_independent_of_generator {Entry} `{!Sizeof Entry}
    (ops : list (Operation Entry)) (self : FractalOpenList Entry) g1 g2 :
  stochastic self = false → queue_type self ≠ RANDOM →
  (run ops self g1).1 = (run ops self g2).1 ∧
  (run ops self g1).2 = set_generator g1 (run ops self g2).2 ∧
  (∀ records dim g,
     select_index false records dim g
       = (first_index_with_size_diff records dim, g)) ∧
  (∀ records dim g,
     retry false records dim g = set_generator g (retry false records dim [])).
Proof.
  intros Hstoch Hqueue.
  rewrite (run_deterministic ops self g1 g2) by done.
  repeat split. intros records dim g. apply retry_deterministic.
Qed.

(** A deterministic LIFO list pops the same entries, and ends in the same
    fault, with the draws 4, 1 at hand as with none. *)
Lemma deterministic_run_independent_of_generator_witness :
  let ops := [RemoveMin None; Insert (example_context [2; 5] 1) 9%nat;
              RemoveMin (Some [])] in
  (run ops (example_two_types LIFO false) [4; 1]%nat).1
    = (run ops (example_two_types LIFO false) []).1 ∧
  (run ops (example_two_types LIFO false) [4; 1]%nat).2
    = set_generator [4; 1]%nat (run ops (example_two_types LIFO false) []).2.
Proof.
  intros ops.
  pose proof (deterministic_run_independent_of_generator ops
                (example_two_types LIFO false) [4; 1]%nat [] eq_refl) as Hrun.
  destruct Hrun as (Hpopped & Hfinal & _); [discriminate|].
  split; [exact Hpopped|exact Hfinal].
Defined.

(** C9, the claim as stated fails under the RANDOM discipline: the same
    six calls on a new deterministic list pop 3, 2 when the generator draws
    0, 0 and pop 3, 3 when it draws 1, 0. *)
Lemma deterministic_RANDOM_run_depends_on_generator :
  let ops := [Insert (example_context [3] 0) 7%nat;
              Insert (example_context [3] 1) 1%nat;
              Insert (example_context [3] 1) 2%nat;
              Insert (example_context [3] 1) 3%nat;
              RemoveMin None; RemoveMin None] in
  stochastic (example_new RANDOM false) = false ∧
  (run ops (example_new RANDOM false) [0; 0]%nat).1 = [3; 2]%nat ∧
  (run ops (example_new RANDOM false) [1; 0]%nat).1 = [3; 3]%nat ∧
  (run ops (example_new RANDOM false) [0; 0]%nat).1
    ≠ (run ops (example_new RANDOM false) [1; 0]%nat).1.
Proof.
  intros ops. split; [reflexivity|].
  assert ((run ops (example_new RANDOM false) [0; 0]%nat).1 = [3; 2]%nat)
    as H1 by (vm_compute; reflexivity).
  assert ((run ops (example_new RANDOM false) [1; 0]%nat).1 = [3; 3]%nat)
    as H2 by (vm_compute; reflexivity).
  split; [exact H1|]. split; [exact H2|].
  rewrite H1, H2. discriminate.
Qed.

(** ** What [remove_min] does when it returns, and when it cannot *)

Section RemoveMinOutcome.
Context {Entry : Type} `{!Sizeof Entry}.
Implicit Types (self : FractalOpenList Entry) (g : RandomNumberGenerator).

(** A call that returns has drawn its entry from a type bucket of the
    primary bucket with the least key, has stored that key in the key slot
    if there is one, and has decremented the entry count. *)
Lemma remove_min_draws_from_least_key key self g entry key' self' g' :
  remove_min key self g = ok (entry, key', self', g') →
  ∃ it_first tbuckets label tbucket,
    buckets self !! it_first = Some tbuckets ∧
    (∀ k, is_Some (buckets self !! k) → key_ltb k it_first = false) ∧
    (label, tbucket) ∈ tbuckets ∧ entry ∈ entries tbucket ∧
    (key = None ∧ key' = None ∨ key = Some [] ∧ key' = Some it_first) ∧
    size self' = size self - 1.
Proof.
  intros Hrm. apply remove_min_inv in Hrm
    as (k & tbs & i & dim & g1 & records & label & tb & tb' & _ & Hbegin &
        Hkey & _ & _ & Hit2 & _ & Hpop & ->).
  exists k, tbs, label, tb. repeat split.
  - by apply begin_lookup.
  - intros k0. by apply (begin_least _ _ tbs).
  - by eapply list_elem_of_lookup_2.
  - by eapply pop_bucket_elem_of.
  - exact Hkey.
Qed.

(** In deterministic mode a list whose least key has a single type bucket
    cannot be popped: the selector returns a rank, never position 0. *)
Lemma remove_min_deterministic_single_type_bucket key self g it_first tb :
  stochastic self = false →
  begin (buckets self) = Some (it_first, [tb]) →
  Z.of_nat (length (records_of self it_first)) < 2 ^ 31 →
  ∃ f, remove_min key self g = fault f.
Proof.
  intros Hstoch Hbegin Hlen.
  destruct (remove_min key self g) as [f|[[[entry key'] self'] g']] eqn:Hrm;
    [by exists f|exfalso].
  apply remove_min_inv in Hrm
    as (k & tbs & i & dim & g1 & records & label & tb0 & tb' & _ & Hbegin' &
        _ & Hretry & _ & Hit2 & _).
  rewrite Hbegin in Hbegin'. injection Hbegin' as <- <-.
  apply retry_selects in Hretry as (_ & Hi & g0 & Hsel).
  rewrite Hstoch in Hsel. injection Hsel as Hsel _.
  destruct (first_index_with_size_diff_range
              (initial_records (records_of self it_first)) dim) as [Hneg|Hpos].
  - apply initial_records_nonempty.
  - unfold initial_records. case_decide; [simpl; lia|done].
  - lia.
  - destruct (Z.to_nat i) as [|n] eqn:Hn; [lia|]. by destruct n.
Qed.
End RemoveMinOutcome.

(** * Further properties of the code *)

(** ** [pop_bucket]: the three disciplines on any queue *)

Section PopBucket.
Context {Entry : Type} `{!Sizeof Entry}.
Implicit Types (bucket : Bucket Entry) (g : RandomNumberGenerator).

(** X1: under LIFO a pop returns the entry at the back, the one pushed
    last, and leaves the others; popping a queue of any length until it is
    empty returns its entries in the reverse of the order they stand in, and
    never touches the generator. *)
Theorem pop_all_LIFO_reverse slot l g :
  let deque l := {| front_slot := slot; entries := l |} in
  (∀ entry, pop_bucket (deque (l ++ [entry])) LIFO g = ok (entry, deque l, g)) ∧
  pop_all (length l) (deque l) LIFO g = ok (reverse l, deque [], g).
Proof.
  intros deque. split; [intros entry; apply pop_bucket_LIFO|]. subst deque.
  induction l as [|entry l IH] using rev_ind; [done|].
  rewrite length_app, Nat.add_1_r, reverse_snoc. cbn [pop_all].
  rewrite pop_bucket_LIFO. cbn [rbind ok]. rewrite IH. reflexivity.
Qed.

(** X2: under FIFO, a queue whose front stands at slot [slot] of its node
    can be popped as many times as there are slots after [slot] in the
    node, and these pops return its entries in the order they stand in,
    front first, and never touch the generator; the pop of the entry in the
    last slot of the node frees the node before the entry is read, and so
    does every sequence of pops that reaches it. *)
Theorem pop_all_FIFO_in_order slot l g :
  (slot < deque_buf_size sizeof)%nat →
  let live := (deque_buf_size sizeof - 1 - slot)%nat in
  (∀ n, (n ≤ length l)%nat → (n ≤ live)%nat →
        pop_all n {| front_slot := slot; entries := l |} FIFO g
          = ok (take n l,
                {| front_slot := slot + n; entries := drop n l |}, g)) ∧
  (∀ n, (live < n ≤ length l)%nat →
        pop_all n {| front_slot := slot; entries := l |} FIFO g
          = fault UseAfterFree).
Proof.
  intros Hslot live. subst live. split.
  - intros n. revert slot l Hslot.
    induction n as [|n IH]; intros slot l Hslot Hlen Hlive.
    { cbn [pop_all take drop]. by rewrite Nat.add_0_r. }
    destruct l as [|entry l]; [simpl in Hlen; lia|]. cbn [length] in Hlen.
    cbn [pop_all]. rewrite pop_bucket_FIFO by lia. cbn [rbind ok].
    rewrite IH by lia. cbn [rbind ok take drop].
    by rewrite Nat.add_succ_comm.
  - intros n. revert slot l Hslot.
    induction n as [|n IH]; intros slot l Hslot [Hlive Hlen]; [lia|].
    destruct l as [|entry l]; [simpl in Hlen; lia|]. cbn [length] in Hlen.
    cbn [pop_all]. destruct (decide (S slot = deque_buf_size sizeof)) as [Hlast|Hlast].
    + by rewrite pop_bucket_FIFO_freed.
    + rewrite pop_bucket_FIFO by done. cbn [rbind ok].
      by rewrite IH by lia.
Qed.

(** X3: under RANDOM a pop of a queue of fewer than [2^31] entries returns
    the entry at the back, whatever slot is drawn; the slot drawn, [i], is
    below the length of the queue, and what is left is the queue without
    its back and with the back written over slot [i]: the entry that stood
    at a drawn slot other than the back is dropped unreturned. *)
Theorem pop_bucket_RANDOM_returns_back slot l last g :
  Z.of_nat (length (l ++ [last])) < 2 ^ 31 →
  let draw := g_rng (Z.of_nat (length (l ++ [last]))) g in
  let i := Z.to_nat draw.1 in
  (i ≤ length l)%nat ∧
  pop_bucket {| front_slot := slot; entries := l ++ [last] |} RANDOM g =
    ok (last,
        {| front_slot := slot;
           entries := if decide (i < length l)%nat then <[i := last]> l
                      else l |},
        draw.2).
Proof.
  intros Hlen draw i. rewrite length_app in Hlen. simpl in Hlen.
  assert (0 ≤ draw.1 < Z.of_nat (length (l ++ [last]))) as Hdraw.
  { apply g_rng_range. rewrite length_app. simpl. lia. }
  rewrite length_app in Hdraw. simpl in Hdraw.
  assert (i ≤ length l)%nat as Hi by lia.
  split; [exact Hi|].
  unfold pop_bucket. cbn [front_slot entries].
  rewrite to_int_small by (rewrite length_app; simpl; lia).
  fold draw. destruct draw as [d g'] eqn:Hd. simpl in i, Hdraw. simpl.
  unfold back_slot. cbn [front_slot entries].
  rewrite length_app, Nat.add_1_r. simpl.
  rewrite lookup_app_r, Nat.sub_diag by lia. simpl.
  fold i. rewrite list_lookup_insert_eq by (rewrite length_app; simpl; lia).
  simpl. unfold pop_back. cbn [front_slot entries]. do 4 f_equal.
  case_decide as Hlt.
  - rewrite insert_app_l by done. apply removelast_last.
  - assert (i = length l) as -> by lia.
    rewrite insert_app_r_alt, Nat.sub_diag by lia. simpl.
    apply removelast_last.
Qed.

(** X4: in every discipline a pop that returns shortens the queue by
    exactly one entry; under FIFO and LIFO the queue it was given is the
    entry returned together with the queue it leaves, and the generator is
    returned as it was given. *)
Theorem pop_bucket_removes_one bucket queue_type g entry bucket' g' :
  pop_bucket bucket queue_type g = ok (entry, bucket', g') →
  length (entries bucket) = S (length (entries bucket')) ∧
  (queue_type ≠ RANDOM →
   entries bucket ≡ₚ entry :: entries bucket' ∧ g' = g).
Proof.
  destruct queue_type.
  - intros (-> & -> & _)%pop_bucket_FIFO_inv. by split.
  - intros (-> & -> & _)%pop_bucket_LIFO_inv. split.
    + rewrite length_app. simpl. lia.
    + intros _. split; [|done]. by rewrite Permutation_app_comm.
  - intros Hpop. split; [|done]. unfold pop_bucket in Hpop.
    destruct (g_rng _ g) as [i g0].
    destruct (entries bucket !! back_slot bucket) as [last|] eqn:Hlast; [|done].
    cbn [or_fault rbind ok] in Hpop.
    destruct (<[Z.to_nat i:=last]> (entries bucket) !! Z.to_nat i); [|done].
    injection Hpop as _ <- _. unfold pop_back. cbn [front_slot entries].
    apply lookup_lt_Some in Hlast.
    rewrite removelast_firstn_len, length_take, length_insert. lia.
Qed.

End PopBucket.

(** A queue of entries of four bytes whose front stands at slot 126 of the
    128 of its node: the first pop returns the front, the second reads the
    node that it has freed. *)
Lemma pop_all_FIFO_in_order_witness :
  (126 < deque_buf_size (sizeof (Entry := nat)))%nat ∧
  pop_all 1 {| front_slot := 126; entries := [1; 2; 3]%nat |} FIFO []
    = ok ([1%nat], {| front_slot := 127; entries := [2; 3]%nat |}, []) ∧
  pop_all 2 {| front_slot := 126; entries := [1; 2; 3]%nat |} FIFO []
    = fault UseAfterFree.
Proof.
  assert (126 < deque_buf_size (sizeof (Entry := nat)))%nat as Hslot
    by (vm_compute; lia).
  destruct (pop_all_FIFO_in_order 126 [1; 2; 3]%nat [] Hslot) as [Hlive Hfreed].
  split; [exact Hslot|]. split.
  - apply (Hlive 1%nat); vm_compute; lia.
  - apply (Hfreed 2%nat); vm_compute; lia.
Defined.

(** With a draw of 0 on the queue 1, 2, 3 the pop returns 3 and leaves 3,
    2. *)
Lemma pop_bucket_RANDOM_returns_back_witness :
  (0 ≤ 2)%nat ∧
  pop_bucket {| front_slot := 0; entries := ([1; 2] ++ [3])%nat |} RANDOM
      [0%nat]
    = ok (3%nat, {| front_slot := 0; entries := [3; 2]%nat |}, []).
Proof.
  apply (pop_bucket_RANDOM_returns_back 0 [1; 2]%nat 3%nat [0%nat]).
  simpl. lia.
Defined.

(** The pop of 3 from the queue 1, 2, 3 under RANDOM leaves two entries. *)
Lemma pop_bucket_removes_one_witness :
  length [1; 2; 3]%nat = S (length [3; 2]%nat) ∧
  (RANDOM ≠ RANDOM → [1; 2; 3]%nat ≡ₚ 3%nat :: [3; 2]%nat ∧ [] = [0%nat]).
Proof.
  apply (pop_bucket_removes_one {| front_slot := 0; entries := [1; 2; 3]%nat |}
           RANDOM [0%nat] 3%nat {| front_slot := 0; entries := [3; 2]%nat |} []).
  reflexivity.
Defined.

(** ** The index selectors on any array *)

(** What the scan of the deterministic selector finds, entered at [depth]:
    the first slot whose test holds, with its rank. *)
Lemma first_index_scan_first records dim depth :
  0 ≤ depth → depth + Z.of_nat (length records) < 2 ^ 32 →
  match first_index_scan records dim depth with
  | Some d =>
      ∃ p record,
        d = depth + Z.of_nat p + 1 ∧ records !! p = Some record ∧
        size_diff d dim record = true ∧
        ∀ q record', (q < p)%nat → records !! q = Some record' →
                     size_diff (depth + Z.of_nat q + 1) dim record' = false
  | None =>
      ∀ p record, records !! p = Some record →
                  size_diff (depth + Z.of_nat p + 1) dim record = false
  end.
Proof.
  revert depth. induction records as [|record records IH];
    intros depth Hdepth Hlen; [done|].
  cbn [first_index_scan]. cbn [length] in Hlen.
  rewrite (to_uint_small (depth + 1)) by lia.
  destruct (size_diff (depth + 1) dim record) eqn:Htest.
  - exists 0%nat, record. repeat split; [lia|done|lia].
  - specialize (IH (depth + 1)).
    destruct (first_index_scan records dim (depth + 1)) as [d|].
    + destruct IH as (p & record' & -> & Hp & Hd & Hfirst); [lia..|].
      exists (S p), record'. repeat split; [lia|done|done|].
      intros [|q] record'' Hq Hlook.
      * injection Hlook as <-.
        by replace (depth + Z.of_nat 0 + 1) with (depth + 1) by lia.
      * replace (depth + Z.of_nat (S q) + 1) with (depth + 1 + Z.of_nat q + 1)
          by lia.
        apply (Hfirst q); [lia|done].
    + intros [|p] record' Hlook.
      * injection Hlook as <-.
        by replace (depth + Z.of_nat 0 + 1) with (depth + 1) by lia.
      * replace (depth + Z.of_nat (S p) + 1) with (depth + 1 + Z.of_nat p + 1)
          by lia.
        apply IH; [lia..|done].
Qed.

(** X5: on an array of fewer than [2^31] counts the deterministic selector
    returns 0 exactly for the empty array; on any other it returns -1 when
    the test [depth*dim > record] fails at every slot, and otherwise the
    1-based rank of the first slot at which it holds, a number between 1
    and the length of the array, so never the 0-based position of that slot
    and never position 0. *)
Theorem first_index_with_size_diff_first records dim :
  Z.of_nat (length records) < 2 ^ 31 →
  let r := first_index_with_size_diff records dim in
  (records = [] → r = 0) ∧
  (records ≠ [] →
   (r = -1 ∧
    ∀ p record, records !! p = Some record →
                size_diff (Z.of_nat p + 1) dim record = false) ∨
   (1 ≤ r ≤ Z.of_nat (length records) ∧
    ∃ record,
      records !! Z.to_nat (r - 1) = Some record ∧
      size_diff r dim record = true ∧
      ∀ q record', Z.of_nat q + 1 < r → records !! q = Some record' →
                   size_diff (Z.of_nat q + 1) dim record' = false)).
Proof.
  intros Hlen r. split.
  - intros ->. reflexivity.
  - intros Hne. subst r. unfold first_index_with_size_diff.
    pose proof (first_index_scan_first records dim 0) as Hscan.
    destruct (first_index_scan records dim 0) as [d|].
    + right. destruct Hscan as (p & record & -> & Hp & Hd & Hfirst); [lia..|].
      pose proof (lookup_lt_Some _ _ _ Hp) as Hlt.
      rewrite to_int_small by lia. split; [lia|].
      exists record. replace (Z.to_nat (0 + Z.of_nat p + 1 - 1)) with p by lia.
      repeat split; [done..|].
      intros q record' Hq Hlook. apply (Hfirst q); [lia|done].
    + left. rewrite decide_False by done. split; [done|].
      intros p record Hlook. apply (Hscan ltac:(lia) ltac:(lia) p record Hlook).
Qed.

(** On the counts 4, 2, 0 with dimension 1 the first slot that passes is the
    one of rank 3, and 3 is returned. *)
Lemma first_index_with_size_diff_first_witness :
  first_index_with_size_diff [4; 2; 0] 1 = 3 ∧
  ([4; 2; 0] ≠ [] →
   (first_index_with_size_diff [4; 2; 0] 1 = -1 ∧
    ∀ p record, [4; 2; 0] !! p = Some record →
                size_diff (Z.of_nat p + 1) 1 record = false) ∨
   (1 ≤ first_index_with_size_diff [4; 2; 0] 1 ≤ Z.of_nat (length [4; 2; 0]) ∧
    ∃ record,
      [4; 2; 0] !! Z.to_nat (first_index_with_size_diff [4; 2; 0] 1 - 1)
        = Some record ∧
      size_diff (first_index_with_size_diff [4; 2; 0] 1) 1 record = true ∧
      ∀ q record', Z.of_nat q + 1 < first_index_with_size_diff [4; 2; 0] 1 →
                   [4; 2; 0] !! q = Some record' →
                   size_diff (Z.of_nat q + 1) 1 record' = false)).
Proof.
  split; [reflexivity|].
  apply (first_index_with_size_diff_first [4; 2; 0] 1). simpl. lia.
Defined.

(** X6: on an array of fewer than [2^31] counts the stochastic selector
    returns 0 for the empty array and -1 when no slot passes the test, in
    both cases with the generator as it was given; otherwise it returns the
    draw, a number from 0 up to but not including the number of slots that
    pass, hence below the length of the array. *)
Theorem random_index_with_size_diff_range records dim g :
  Z.of_nat (length records) < 2 ^ 31 →
  let r := random_index_with_size_diff records dim g in
  let indices := collect_indices records dim 0 in
  (records = [] → r = (0, g)) ∧
  (records ≠ [] → indices = [] → r = (-1, g)) ∧
  (indices ≠ [] →
   r = g_rng (Z.of_nat (length indices)) g ∧
   0 ≤ r.1 < Z.of_nat (length indices) ∧
   Z.of_nat (length indices) ≤ Z.of_nat (length records)).
Proof.
  intros Hlen r indices. subst r. unfold random_index_with_size_diff.
  fold indices. split; [|split].
  - intros ->. reflexivity.
  - intros Hne ->. by rewrite decide_False.
  - intros Hind.
    pose proof (collect_indices_length records dim 0) as Hle. fold indices in Hle.
    assert (records ≠ []) as Hne by (intros ->; by apply Hind).
    rewrite !decide_False, to_int_small by (done || lia).
    split; [done|]. split; [|lia].
    apply g_rng_range. destruct indices; [done|simpl; lia].
Qed.

(** On the counts 4, 2, 0 with dimension 1 one slot passes, and any draw is
    reduced to 0. *)
Lemma random_index_with_size_diff_range_witness :
  random_index_with_size_diff [4; 2; 0] 1 [5%nat] = (0, []) ∧
  0 ≤ (random_index_with_size_diff [4; 2; 0] 1 [5%nat]).1
    < Z.of_nat (length (collect_indices [4; 2; 0] 1 0)) ∧
  Z.of_nat (length (collect_indices [4; 2; 0] 1 0)) ≤ Z.of_nat (length [4; 2; 0]).
Proof.
  pose proof (random_index_with_size_diff_range [4; 2; 0] 1 [5%nat]) as Hrange.
  destruct Hrange as (_ & _ & Hdraw); [simpl; lia|].
  destruct Hdraw as (Heq & Hbound); [discriminate|].
  split; [exact Heq|exact Hbound].
Defined.

(** ** Termination of the dimension loop *)

(** The stochastic selector collects nothing exactly when the scan of the
    deterministic one finds nothing. *)
Lemma collect_indices_nil records dim depth :
  collect_indices records dim depth = [] ↔
  first_index_scan records dim depth = None.
Proof.
  revert depth. induction records as [|record records IH]; intros depth;
    [done|].
  cbn [collect_indices first_index_scan].
  destruct (size_diff _ _ _); [done|]. apply IH.
Qed.

(** The scan finds nothing exactly when no position is a candidate. *)
Lemma first_index_scan_None records dim :
  Z.of_nat (length records) < 2 ^ 31 →
  first_index_scan records dim 0 = None ↔ ∀ p, ¬ candidate records dim p.
Proof.
  intros Hlen.
  pose proof (first_index_scan_first records dim 0 ltac:(lia) ltac:(lia))
    as Hscan.
  destruct (first_index_scan records dim 0) as [d|]; split; try done.
  - intros Hnone. exfalso.
    destruct Hscan as (p & record & -> & Hp & Hd & _).
    apply (Hnone p). exists record. split; [done|].
    by replace (Z.of_nat p + 1) with (0 + Z.of_nat p + 1) by lia.
  - intros _ p (record & Hp & Hd). specialize (Hscan p record Hp).
    replace (0 + Z.of_nat p + 1) with (Z.of_nat p + 1) in Hscan by lia.
    congruence.
Qed.

(** Whether a dimension admits a selection can be told. *)
Lemma admits_dec records dim :
  Z.of_nat (length records) < 2 ^ 31 →
  admits records dim ∨ records ≠ [] ∧ ∀ p, ¬ candidate records dim p.
Proof.
  intros Hlen. destruct records as [|record records]; [by left; left|].
  pose proof (first_index_scan_None (record :: records) dim Hlen) as Hnone.
  pose proof (first_index_scan_first (record :: records) dim 0
                ltac:(lia) ltac:(lia)) as Hscan.
  destruct (first_index_scan (record :: records) dim 0) as [d|].
  - left. right. destruct Hscan as (p & record' & -> & Hp & Hd & _).
    exists p, record'. split; [done|].
    by replace (Z.of_nat p + 1) with (0 + Z.of_nat p + 1) by lia.
  - right. split; [done|]. by apply Hnone.
Qed.

(** Both selectors return an index exactly at the dimensions that admit
    one; at the others they return -1 and leave the generator alone. *)
Lemma select_index_admits stochastic records dim g :
  Z.of_nat (length records) < 2 ^ 31 → admits records dim →
  0 ≤ (select_index stochastic records dim g).1.
Proof.
  intros Hlen [->|Hcand]; [by destruct stochastic|].
  assert (records ≠ []) as Hne.
  { destruct Hcand as (p & record & Hp & _). by intros ->. }
  assert (first_index_scan records dim 0 ≠ None) as Hscan.
  { rewrite first_index_scan_None by done. intros Hnone.
    destruct Hcand as [p Hp]. by apply (Hnone p). }
  unfold select_index. destruct stochastic.
  - unfold random_index_with_size_diff. rewrite decide_False by done.
    rewrite decide_False by (by rewrite collect_indices_nil).
    pose proof (collect_indices_length records dim 0) as Hle.
    apply g_rng_range. rewrite to_int_small by lia.
    destruct (collect_indices records dim 0) eqn:Hind; [|simpl; lia].
    by apply collect_indices_nil in Hind.
  - cbn [fst].
    destruct (first_index_with_size_diff_range records dim Hne Hlen)
      as [Hnone|]; [|lia].
    unfold first_index_with_size_diff in Hnone.
    destruct (first_index_scan records dim 0) as [d|] eqn:Hd; [|done].
    apply first_index_scan_range in Hd; [|lia..].
    rewrite to_int_small in Hnone; lia.
Qed.

Lemma select_index_no_candidate stochastic records dim g :
  Z.of_nat (length records) < 2 ^ 31 →
  records ≠ [] → (∀ p, ¬ candidate records dim p) →
  select_index stochastic records dim g = (-1, g).
Proof.
  intros Hlen Hne Hnone. apply first_index_scan_None in Hnone; [|done].
  unfold select_index, random_index_with_size_diff,
    first_index_with_size_diff.
  rewrite Hnone, (proj2 (collect_indices_nil records dim 0) Hnone).
  destruct stochastic; by rewrite !decide_False by done.
Qed.

(** The loop leaves at the first dimension that admits a selection, if
    there is one within its bound. *)
Lemma retry_loop_leaves stochastic records n d d' g :
  Z.of_nat (length records) < 2 ^ 31 →
  d ≤ d' ≤ INT_MAX → admits records d' → (Z.to_nat (d' - d) < n)%nat →
  ∃ bucket_i dim' g',
    loop_nat (retry_body stochastic records) n (d, g)
      = inl (ok (bucket_i, dim', g')) ∧ d ≤ dim' ≤ d'.
Proof.
  intros Hlen. revert d g. induction n as [|n IH]; intros d g Hd Hadm Hn;
    [lia|].
  cbn [loop_nat]. unfold retry_body at 1.
  destruct (admits_dec records d Hlen) as [Hhere|[Hne Hnone]].
  - pose proof (select_index_admits stochastic records d g Hlen Hhere) as Hi.
    destruct (select_index stochastic records d g) as [i g0]. simpl in Hi.
    destruct (Z.ltb_spec i 0); [lia|]. exists i, d, g0. split; [done|lia].
  - rewrite select_index_no_candidate by done.
    assert (d ≠ d') as Hneq.
    { intros ->. destruct Hadm as [->|[p Hp]]; [done|]. by apply (Hnone p). }
    destruct (Z.ltb_spec (-1) 0); [|lia].
    destruct (Z.ltb_spec d INT_MAX); [|lia].
    destruct (IH (d + 1) g) as (i & dim' & g' & Hloop & Hdim'); [lia|done|lia|].
    exists i, dim', g'. split; [done|lia].
Qed.

(** The dimension at which the loop leaves admits a selection, and no
    dimension before it does. *)
Lemma retry_loop_first stochastic records n d g bucket_i dim' g' :
  Z.of_nat (length records) < 2 ^ 31 → d ≤ INT_MAX →
  loop_nat (retry_body stochastic records) n (d, g)
    = inl (ok (bucket_i, dim', g')) →
  0 ≤ bucket_i ∧ d ≤ dim' ≤ INT_MAX ∧ admits records dim' ∧
  ∀ d0, d ≤ d0 < dim' → ¬ admits records d0.
Proof.
  intros Hlen. revert d g. induction n as [|n IH]; intros d g Hd; [done|].
  cbn [loop_nat].
  destruct (retry_body stochastic records (d, g)) as [selection|s] eqn:Hbody.
  - intros [= ->]. apply retry_body_selects in Hbody as (Hsel & Hi & ->).
    split; [done|]. split; [lia|]. split; [|intros d0; lia].
    destruct (admits_dec records d Hlen) as [Hhere|[Hne Hnone]]; [done|].
    rewrite select_index_no_candidate in Hsel by done.
    injection Hsel as <- _. lia.
  - apply retry_body_continues in Hbody as (Hneg & Hlt & ->).
    intros Hloop. apply IH in Hloop as (Hi & Hdim' & Hadm & Hfirst); [|lia].
    split; [done|]. split; [lia|]. split; [done|].
    intros d0 Hd0. destruct (decide (d0 = d)) as [->|]; [|apply Hfirst; lia].
    intros Hhere.
    pose proof (select_index_admits stochastic records d g Hlen Hhere). lia.
Qed.

(** C6, as amended: for every usage-count array of fewer than [2^31] slots
    and every starting dimension that is an [int], the retry loop of
    [remove_min] leaves with an index, in both modes, exactly when some
    dimension from the starting one up to [INT_MAX] admits a selection:
    the array is empty, or some position is a candidate in the [uint]
    arithmetic of the test.  The counts being fixed during the retries, the
    loop then leaves at the least such dimension.  This is so in
    particular when some dimension [d] from the starting one up to
    [INT_MAX] makes a position a candidate with a product that does not
    wrap, as the first count plus one does for the first position when
    that count is below [INT_MAX]. *)
Theorem retry_terminates stochastic records dim g :
  Z.of_nat (length records) < 2 ^ 31 → INT_MIN ≤ dim ≤ INT_MAX →
  ((∃ bucket_i dim' g',
      retry stochastic records dim g = ok (bucket_i, dim', g')) ↔
   (∃ d, dim ≤ d ≤ INT_MAX ∧ admits records d)) ∧
  (∀ bucket_i dim' g',
     retry stochastic records dim g = ok (bucket_i, dim', g') →
     0 ≤ bucket_i ∧ dim ≤ dim' ≤ INT_MAX ∧ admits records dim' ∧
     ∀ d, dim ≤ d < dim' → ¬ admits records d) ∧
  (∀ d p record,
     dim ≤ d ≤ INT_MAX → records !! p = Some record →
     0 ≤ record < (Z.of_nat p + 1) * d → (Z.of_nat p + 1) * d < 2 ^ 32 →
     ∃ bucket_i dim' g',
       retry stochastic records dim g = ok (bucket_i, dim', g') ∧
       dim ≤ dim' ≤ d).
Proof.
  intros Hlen Hdim.
  assert (∀ bucket_i dim' g',
            retry stochastic records dim g = ok (bucket_i, dim', g') →
            0 ≤ bucket_i ∧ dim ≤ dim' ≤ INT_MAX ∧ admits records dim' ∧
            ∀ d, dim ≤ d < dim' → ¬ admits records d) as Hfirst.
  { intros i dim' g'. rewrite retry_unary.
    destruct (loop_nat _ _ _) as [selection|] eqn:Hloop; [|done].
    intros ->. apply retry_loop_first in Hloop; [done..|lia]. }
  assert (∀ d, dim ≤ d ≤ INT_MAX → admits records d →
               ∃ bucket_i dim' g',
                 retry stochastic records dim g = ok (bucket_i, dim', g') ∧
                 dim ≤ dim' ≤ d) as Hleaves.
  { intros d Hd Hadm.
    destruct (retry_loop_leaves stochastic records
                (Pos.to_nat (retry_rounds dim)) dim d g Hlen Hd Hadm)
      as (i & dim' & g' & Hloop & Hdim').
    { pose proof (retry_rounds_unary dim (proj2 Hdim)). lia. }
    exists i, dim', g'. split; [|done]. by rewrite retry_unary, Hloop. }
  split; [split|split; [exact Hfirst|]].
  - intros (i & dim' & g' & Hretry).
    destruct (Hfirst _ _ _ Hretry) as (_ & Hdim' & Hadm & _). by exists dim'.
  - intros (d & Hd & Hadm).
    destruct (Hleaves d Hd Hadm) as (i & dim' & g' & Hretry & _).
    by exists i, dim', g'.
  - intros d p record Hd Hp Hrecord Hwrap. apply Hleaves; [done|].
    right. exists p, record. split; [done|].
    assert (0 ≤ d < 2 ^ 32) by nia.
    apply size_diff_spec. rewrite (to_uint_small d), to_uint_small by lia. lia.
Qed.

(** In deterministic mode, with every count at 100, the loop entered at
    dimension 0 goes round four times: the dimensions 0 to 3 admit no
    selection, and at dimension 4 rank 26 is the first candidate. *)
Lemma retry_terminates_witness :
  retry false (replicate 32 100) 0 [] = ok (26, 4, []) ∧
  0 ≤ 26 ∧ 0 ≤ 4 ≤ INT_MAX ∧ admits (replicate 32 100) 4 ∧
  ∀ d, 0 ≤ d < 4 → ¬ admits (replicate 32 100) d.
Proof.
  assert (retry false (replicate 32 100) 0 [] = ok (26, 4, [])) as Hretry
    by (vm_compute; reflexivity).
  split; [exact Hretry|].
  exact (proj1 (proj2 (retry_terminates false (replicate 32 100) 0 []
                         ltac:(simpl; lia)
                         ltac:(unfold INT_MIN, INT_MAX; lia)))
           26 4 [] Hretry).
Defined.

(** ** [remove_min]: what it leaves alone *)

Section RemoveMinFrame.
Context {Entry : Type} `{!Sizeof Entry}.
Implicit Types (self : FractalOpenList Entry) (g : RandomNumberGenerator).

Lemma store_type_bucket_other (it_first k : Key) (it2 : nat) (label : Z)
    (tbucket : Bucket Entry) (tbuckets : TypeBuckets Entry)
    (m : gmap Key (TypeBuckets Entry)) :
  k ≠ it_first →
  store_type_bucket it_first it2 label tbucket tbuckets m !! k = m !! k.
Proof.
  intros Hne. unfold store_type_bucket.
  repeat case_bool_decide;
    by rewrite ?lookup_delete_ne, ?lookup_insert_ne by done.
Qed.

(** X7: a call of [remove_min] that returns has worked on the primary
    bucket of the least key only: its entry stood in a type bucket of that
    primary bucket, and for every other key the primary bucket, the usage
    counts and the dimension are what they were; the options
    [only_preferred], [queue_type], [stochastic] and [max_depth] are never
    changed. *)
Theorem remove_min_frame key self g entry key' self' g' :
  remove_min key self g = ok (entry, key', self', g') →
  ∃ it_first tbuckets,
    begin (buckets self) = Some (it_first, tbuckets) ∧
    (∀ k, is_Some (buckets self !! k) → key_ltb k it_first = false) ∧
    (∃ label tbucket, (label, tbucket) ∈ tbuckets ∧ entry ∈ entries tbucket) ∧
    (∀ k, k ≠ it_first →
          buckets self' !! k = buckets self !! k ∧
          expansion_records self' !! k = expansion_records self !! k ∧
          current_dimension self' !! k = current_dimension self !! k) ∧
    only_preferred self' = only_preferred self ∧
    queue_type self' = queue_type self ∧
    stochastic self' = stochastic self ∧
    max_depth self' = max_depth self.
Proof.
  intros Hrm. apply remove_min_inv in Hrm
    as (k & tbs & i & dim & g1 & records & label & tb & tb' & _ & Hbegin &
        _ & _ & _ & Hit2 & _ & Hpop & ->).
  exists k, tbs. split; [done|]. split.
  { intros k0. by apply (begin_least _ _ tbs). }
  split.
  { exists label, tb. split; [by eapply list_elem_of_lookup_2|].
    by eapply pop_bucket_elem_of. }
  split; [|done].
  intros k0 Hne. simpl.
  by rewrite store_type_bucket_other, !lookup_insert_ne by done.
Qed.
End RemoveMinFrame.

(** The key [[3]] is popped; the key [[4; 1]] keeps its primary bucket. *)
Lemma remove_min_frame_witness :
  let self := (insert (example_context [4; 1] 0) 9%nat
                 (example_two_types FIFO false)).1.1 in
  ∃ self',
    remove_min None self [] = ok (1%nat, None, self', []) ∧
    ∃ it_first tbuckets,
      begin (buckets self) = Some (it_first, tbuckets) ∧
      (∀ k, k ≠ it_first →
            buckets self' !! k = buckets self !! k ∧
            expansion_records self' !! k = expansion_records self !! k ∧
            current_dimension self' !! k = current_dimension self !! k).
Proof.
  intros self. eexists. split; [vm_compute; reflexivity|].
  edestruct (remove_min_frame None self [])
    as (it_first & tbuckets & Hbegin & _ & _ & Hframe & _);
    [vm_compute; reflexivity|].
  exists it_first, tbuckets. split; [exact Hbegin|exact Hframe].
Defined.

(** ** Counting the entries *)

Lemma sum_list_with_delete {A} (f : A → nat) (l : list A) i x :
  l !! i = Some x →
  (sum_list_with f (delete i l) + f x = sum_list_with f l)%nat.
Proof.
  intros Hi. rewrite delete_take_drop.
  rewrite <- (take_drop_middle l i x Hi) at 3.
  rewrite !sum_list_with_app. simpl. lia.
Qed.

Lemma sum_list_with_insert {A} (f : A → nat) (l : list A) i x y :
  l !! i = Some x →
  (sum_list_with f (<[i := y]> l) + f x = sum_list_with f l + f y)%nat.
Proof.
  intros Hi. rewrite insert_take_drop by (by eapply lookup_lt_Some).
  rewrite <- (take_drop_middle l i x Hi) at 3.
  rewrite !sum_list_with_app. simpl. lia.
Qed.

(** [lia] after the types of the buckets are unfolded, so that equal terms
    are equal atoms. *)
Ltac bucket_lia := unfold TypeBuckets in *; lia.

Section BookkeepingFacts.
Context {Entry : Type} `{!Sizeof Entry}.
Implicit Types (self : FractalOpenList Entry) (g : RandomNumberGenerator)
  (tbuckets : TypeBuckets Entry) (m : gmap Key (TypeBuckets Entry)).

Lemma tbuckets_entries_delete tbuckets i label (tbucket : Bucket Entry) :
  tbuckets !! i = Some (label, tbucket) →
  (tbuckets_entries (delete i tbuckets) + length (entries tbucket)
   = tbuckets_entries tbuckets)%nat.
Proof.
  intros Hi.
  exact (sum_list_with_delete (λ tb : Z * Bucket Entry, length (entries tb.2))
           tbuckets i (label, tbucket) Hi).
Qed.

Lemma tbuckets_entries_insert tbuckets i label (tbucket : Bucket Entry)
    label' (tbucket' : Bucket Entry) :
  tbuckets !! i = Some (label, tbucket) →
  (tbuckets_entries (<[i := (label', tbucket')]> tbuckets) + length (entries tbucket)
   = tbuckets_entries tbuckets + length (entries tbucket'))%nat.
Proof.
  intros Hi.
  exact (sum_list_with_insert (λ tb : Z * Bucket Entry, length (entries tb.2))
           tbuckets i (label, tbucket) (label', tbucket') Hi).
Qed.

Lemma buckets_entries_insert_new m k tbuckets :
  m !! k = None →
  buckets_entries (<[k := tbuckets]> m)
  = (tbuckets_entries tbuckets + buckets_entries m)%nat.
Proof.
  intros Hk. unfold buckets_entries.
  rewrite map_fold_insert_L; [done| |done]. intros. bucket_lia.
Qed.

Lemma buckets_entries_delete m k tbuckets :
  m !! k = Some tbuckets →
  (buckets_entries (delete k m) + tbuckets_entries tbuckets
   = buckets_entries m)%nat.
Proof.
  intros Hk. unfold buckets_entries.
  rewrite (map_fold_delete_L _ _ k tbuckets m); [bucket_lia| |done]. intros. bucket_lia.
Qed.

Lemma buckets_entries_insert m k tbuckets tbuckets' :
  m !! k = Some tbuckets →
  (buckets_entries (<[k := tbuckets']> m) + tbuckets_entries tbuckets
   = buckets_entries m + tbuckets_entries tbuckets')%nat.
Proof.
  intros Hk. rewrite <- (insert_delete_eq m).
  rewrite buckets_entries_insert_new by apply lookup_delete_eq.
  pose proof (buckets_entries_delete m k tbuckets Hk). bucket_lia.
Qed.

(** A bucket with a type bucket that holds an entry holds an entry. *)
Lemma buckets_entries_positive m k tbuckets label (tbucket : Bucket Entry) :
  m !! k = Some tbuckets → (label, tbucket) ∈ tbuckets → entries tbucket ≠ [] →
  (0 < buckets_entries m)%nat.
Proof.
  intros Hk Hin Hne. pose proof (buckets_entries_delete m k tbuckets Hk).
  pose proof (sum_list_with_in _ (λ tb : Z * Bucket Entry, length (entries tb.2)) _ Hin)
    as Hle.
  change (length (entries tbucket) ≤ tbuckets_entries tbuckets)%nat in Hle.
  destruct (entries tbucket); [done|]. simpl in Hle. bucket_lia.
Qed.

(** Writing the popped type bucket back takes one entry off the count. *)
Lemma store_type_bucket_entries m k tbuckets i label
    (tbucket tbucket' : Bucket Entry) :
  m !! k = Some tbuckets → tbuckets !! i = Some (label, tbucket) →
  length (entries tbucket) = S (length (entries tbucket')) →
  S (buckets_entries (store_type_bucket k i label tbucket' tbuckets m))
  = buckets_entries m.
Proof.
  intros Hk Hi Hlen. unfold store_type_bucket.
  pose proof (tbuckets_entries_delete _ _ _ _ Hi) as Hdel.
  pose proof (tbuckets_entries_insert _ _ _ _ label tbucket' Hi) as Hins.
  case_bool_decide as Hempty.
  - rewrite Hempty in Hlen. simpl in Hlen. case_bool_decide as Hlast.
    + rewrite Hlast in Hdel. unfold tbuckets_entries at 1 in Hdel.
      simpl in Hdel. pose proof (buckets_entries_delete m k tbuckets Hk). bucket_lia.
    + pose proof (buckets_entries_insert m k tbuckets (delete i tbuckets) Hk).
      bucket_lia.
  - pose proof (buckets_entries_insert m k tbuckets
                  (<[i := (label, tbucket')]> tbuckets) Hk). bucket_lia.
Qed.

(** Writing the popped type bucket back leaves no empty bucket behind. *)
Lemma store_type_bucket_wf m k tbuckets i label (tbucket' : Bucket Entry) :
  buckets_wf m → m !! k = Some tbuckets → (i < length tbuckets)%nat →
  buckets_wf (store_type_bucket k i label tbucket' tbuckets m).
Proof.
  intros Hwf Hk Hi k0 tbs0. unfold store_type_bucket.
  destruct (Hwf k tbuckets Hk) as [Hne Hall].
  case_bool_decide as Hempty; [case_bool_decide as Hlast|].
  - intros [_ Hk0]%lookup_delete_Some. by apply Hwf in Hk0.
  - intros [[_ <-]|[_ Hk0]]%lookup_insert_Some; [|by apply Hwf in Hk0].
    split; [done|]. by apply Forall_delete.
  - intros [[_ <-]|[_ Hk0]]%lookup_insert_Some; [|by apply Hwf in Hk0].
    split.
    + destruct tbuckets as [|tb tbs]; [done|]. by destruct i.
    + by apply Forall_insert.
Qed.

(** The same for an insertion: one entry more, no empty bucket. *)
Lemma push_typed_entries label (entry : Entry) tbuckets :
  tbuckets_entries (push_typed label entry tbuckets)
  = S (tbuckets_entries tbuckets).
Proof.
  unfold push_typed.
  destruct (list_find _ tbuckets) as [[i [label' bucket]]|] eqn:Hfind.
  - apply list_find_Some in Hfind as (Hi & _ & _).
    pose proof (tbuckets_entries_insert _ _ _ _ label (push_back entry bucket)
                  Hi) as Hins.
    cbn [push_back entries] in Hins.
    rewrite length_app in Hins. simpl in Hins. bucket_lia.
  - unfold tbuckets_entries. rewrite sum_list_with_app. simpl. bucket_lia.
Qed.

Lemma push_typed_wf label (entry : Entry) tbuckets :
  Forall (λ tb, entries tb.2 ≠ []) tbuckets →
  push_typed label entry tbuckets ≠ [] ∧
  Forall (λ tb, entries tb.2 ≠ []) (push_typed label entry tbuckets).
Proof.
  intros Hall. unfold push_typed.
  destruct (list_find _ tbuckets) as [[i [label' bucket]]|] eqn:Hfind.
  - apply list_find_Some in Hfind as (Hi & _ & _). split.
    + destruct tbuckets as [|tb tbs]; [done|]. by destruct i.
    + apply Forall_insert; [done|]. simpl. by destruct (entries bucket).
  - split; [by destruct tbuckets|].
    apply Forall_app. split; [done|]. by repeat constructor.
Qed.

Lemma insert_bookkeeping (eval_context : EvaluationContext) (entry : Entry)
    self :
  buckets_wf (buckets self) → size self = Z.of_nat (stored self) →
  let self' := (insert eval_context entry self).1.1 in
  buckets_wf (buckets self') ∧ size self' = Z.of_nat (stored self').
Proof.
  intros Hwf Hsize. unfold insert. simpl.
  destruct (only_preferred self && negb (is_preferred eval_context)); [done|].
  destruct (dead_end eval_context); [done|]. simpl.
  unfold stored in *. simpl. split.
  - intros k tbs [[_ <-]|[_ Hk]]%lookup_insert_Some; [|by apply Hwf in Hk].
    apply push_typed_wf.
    destruct (buckets self !! eval_key eval_context) as [tbs|] eqn:Hk;
      [apply Hwf in Hk as [_ Hall]; exact Hall|constructor].
  - destruct (buckets self !! eval_key eval_context) as [tbs|] eqn:Hk; simpl.
    + pose proof (buckets_entries_insert _ _ _
                    (push_typed (eval_type eval_context) entry tbs) Hk).
      rewrite push_typed_entries in *. bucket_lia.
    + rewrite buckets_entries_insert_new, push_typed_entries by done.
      unfold tbuckets_entries. simpl. bucket_lia.
Qed.

(** A pop that returns shortens the queue by one. *)
Lemma pop_bucket_length (bucket : Bucket Entry) queue_type g entry bucket' g' :
  pop_bucket bucket queue_type g = ok (entry, bucket', g') →
  length (entries bucket) = S (length (entries bucket')).
Proof.
  destruct queue_type.
  - by intros (-> & _)%pop_bucket_FIFO_inv.
  - intros (-> & _)%pop_bucket_LIFO_inv. rewrite length_app. simpl. lia.
  - unfold pop_bucket. destruct (g_rng _ g) as [i g0].
    destruct (entries bucket !! back_slot bucket) as [last|] eqn:Hlast; [|done].
    cbn [or_fault rbind ok].
    destruct (<[Z.to_nat i:=last]> (entries bucket) !! Z.to_nat i); [|done].
    intros [= _ <- _]. unfold pop_back. cbn [front_slot entries].
    apply lookup_lt_Some in Hlast.
    rewrite removelast_firstn_len, length_take, length_insert. lia.
Qed.

Lemma remove_min_entries key self g entry key' self' g' :
  remove_min key self g = ok (entry, key', self', g') →
  size self' = size self - 1 ∧ S (stored self') = stored self.
Proof.
  intros Hrm. apply remove_min_inv in Hrm
    as (k & tbs & i & dim & g1 & records & label & tb & tb' & _ & Hbegin &
        _ & _ & _ & Hit2 & _ & Hpop & ->).
  split; [done|]. unfold stored. simpl.
  apply store_type_bucket_entries with (tbucket := tb);
    [by apply begin_lookup|done|by eapply pop_bucket_length].
Qed.

Lemma remove_min_buckets_wf key self g entry key' self' g' :
  remove_min key self g = ok (entry, key', self', g') →
  buckets_wf (buckets self) → buckets_wf (buckets self').
Proof.
  intros Hrm Hwf. apply remove_min_inv in Hrm
    as (k & tbs & i & dim & g1 & records & label & tb & tb' & _ & Hbegin &
        _ & _ & _ & Hit2 & _ & Hpop & ->).
  simpl. apply store_type_bucket_wf;
    [done|by apply begin_lookup|by eapply lookup_lt_Some].
Qed.

Lemma reachable_bookkeeping self :
  reachable self →
  buckets_wf (buckets self) ∧ size self = Z.of_nat (stored self).
Proof.
  induction 1 as [pref_only queue stoch depth self Hnew
                 |self eval_context entry _ [Hwf Hsize]
                 |self key g entry key' self' g' _ [Hwf Hsize] Hrm].
  - unfold new_FractalOpenList in Hnew. destruct (0 <? depth); [|done].
    injection Hnew as <-. split; [|done]. by intros k tbs Hk.
  - by apply insert_bookkeeping.
  - split; [by eapply remove_min_buckets_wf|].
    destruct (remove_min_entries _ _ _ _ _ _ _ Hrm) as [-> Hstored].
    bucket_lia.
Qed.

(** X8: a call of [remove_min] that returns decrements [size] by one and
    takes exactly one entry out of the buckets, in every queue discipline
    and in both modes. *)
Theorem remove_min_removes_one_entry key self g entry key' self' g' :
  remove_min key self g = ok (entry, key', self', g') →
  size self' = size self - 1 ∧ S (stored self') = stored self.
Proof. apply remove_min_entries. Qed.

(** X9: on every list that a search can reach, [size] is the number of
    entries in the buckets, no primary bucket is without a type bucket and
    no type bucket without an entry, and [size] is 0 exactly when there is
    no primary bucket. *)
Theorem reachable_size_is_stored self :
  reachable self →
  size self = Z.of_nat (stored self) ∧
  buckets_wf (buckets self) ∧
  (size self = 0 ↔ buckets self = ∅).
Proof.
  intros [Hwf Hsize]%reachable_bookkeeping. split; [done|]. split; [done|].
  rewrite Hsize. unfold stored. split.
  - intros Hzero. apply map_empty. intros k.
    destruct (buckets self !! k) as [tbs|] eqn:Hk; [exfalso|done].
    destruct (Hwf k tbs Hk) as [Hne Hall]. destruct tbs as [|[label tb] tbs]; [done|].
    apply Forall_cons in Hall as [Htb _].
    pose proof (buckets_entries_positive _ _ _ label tb Hk ltac:(left) Htb).
    bucket_lia.
  - intros ->. reflexivity.
Qed.
End BookkeepingFacts.

(** The pop of entry 1 leaves three of the four entries. *)
Lemma remove_min_removes_one_entry_witness :
  ∃ self',
    remove_min None (example_two_types FIFO false) []
      = ok (1%nat, None, self', []) ∧
    size self' = size (example_two_types FIFO false) - 1 ∧
    S (stored self') = stored (example_two_types FIFO false).
Proof.
  eexists. split; [vm_compute; reflexivity|].
  apply (remove_min_removes_one_entry None (example_two_types FIFO false) []
           1%nat None _ []).
  vm_compute; reflexivity.
Defined.

(** The list with four entries under key [[3]] is reachable: its size is 4. *)
Lemma reachable_size_is_stored_witness :
  size (example_two_types FIFO false)
    = Z.of_nat (stored (example_two_types FIFO false)) ∧
  buckets_wf (buckets (example_two_types FIFO false)) ∧
  (size (example_two_types FIFO false) = 0
   ↔ buckets (example_two_types FIFO false) = ∅).
Proof.
  apply reachable_size_is_stored.
  unfold example_two_types, example_single.
  do 4 apply reachable_insert.
  by apply (reachable_new false FIFO false 1000000).
Defined.

(** ** The positions that [remove_min] selects *)

(** An index returned by the stochastic selector is below the length of the
    array. *)
Lemma random_index_below records dim g :
  records ≠ [] → Z.of_nat (length records) < 2 ^ 31 →
  0 ≤ (random_index_with_size_diff records dim g).1 →
  (random_index_with_size_diff records dim g).1 < Z.of_nat (length records).
Proof.
  intros Hne Hlen. unfold random_index_with_size_diff.
  rewrite decide_False by done.
  pose proof (collect_indices_length records dim 0) as Hle.
  destruct (collect_indices records dim 0) as [|rank indices] eqn:Hind.
  - rewrite decide_True by done. simpl. lia.
  - rewrite decide_False by done. intros _.
    rewrite to_int_small by lia.
    pose proof (g_rng_range (Z.of_nat (length (rank :: indices))) g) as Hrange.
    simpl length in *. lia.
Qed.

(** When the first count is 0 the deterministic selector returns rank 1 at
    every positive dimension. *)
Lemma first_index_head_zero records dim :
  1 ≤ dim ≤ INT_MAX → first_index_with_size_diff (0 :: records) dim = 1.
Proof.
  intros Hdim. unfold first_index_with_size_diff. cbn [first_index_scan].
  replace (size_diff (to_uint (0 + 1)) dim 0) with true.
  - rewrite (to_uint_small (0 + 1)), to_int_small; lia.
  - symmetry. apply size_diff_rank_1. unfold INT_MAX in Hdim.
    rewrite to_uint_small; lia.
Qed.

(** When the first count is 0 and the dimension 0 or 1, the deterministic
    loop leaves with index 1 at dimension 1. *)
Lemma retry_head_zero records dim g :
  Forall (λ record, 0 ≤ record) records → 0 ≤ dim ≤ 1 →
  Z.of_nat (length (0 :: records)) < 2 ^ 31 →
  retry false (0 :: records) dim g = ok (1, 1, g).
Proof.
  intros Hrec Hdim Hlen.
  assert (∃ g', retry false (0 :: records) dim [] = ok (1, 1, g')) as [g' Heq].
  { destruct (retry_selects_within false 0 records dim
                (Pos.to_nat (retry_rounds dim)) dim [])
      as (i & d' & g' & Hloop & Hd'); [unfold INT_MAX; lia|
        unfold INT_MIN, INT_MAX; lia|exact Hlen|lia| |].
    { pose proof (retry_rounds_unary dim ltac:(unfold INT_MAX; lia)).
      unfold INT_MAX in *. lia. }
    assert (retry false (0 :: records) dim [] = ok (i, d', g')) as Hretry.
    { rewrite retry_unary, Hloop. reflexivity. }
    exists g'. rewrite Hretry.
    apply retry_selects in Hretry as (_ & Hi & g0 & Hsel).
    destruct (decide (d' = 0)) as [->|Hd0].
    - rewrite select_index_dim_0 in Hsel by (done || by constructor).
      injection Hsel as <- _. lia.
    - assert (d' = 1) as -> by lia. unfold select_index in Hsel.
      rewrite first_index_head_zero in Hsel by (unfold INT_MAX; lia).
      by injection Hsel as <- _. }
  rewrite (retry_deterministic _ _ g []), Heq. reflexivity.
Qed.

(** A fault of the dimension loop is the overflow of the dimension. *)
Lemma retry_fault stochastic records dim g f :
  retry stochastic records dim g = fault f → f = SignedOverflow.
Proof.
  rewrite retry_unary.
  destruct (loop_nat _ _ _) as [selection|] eqn:Hloop; [|by intros [= <-]].
  intros ->.
  apply (loop_nat_leaves _ (λ _, True)) in Hloop as ([d g0] & _ & Hbody);
    [|done..].
  unfold retry_body in Hbody. destruct (select_index _ _ _ _) as [i g1].
  destruct (i <? 0); [|done]. destruct (d <? INT_MAX); [done|].
  by injection Hbody as <-.
Qed.

Section SelectedPositions.
Context {Entry : Type} `{!Sizeof Entry}.
Implicit Types (self : FractalOpenList Entry) (g : RandomNumberGenerator).

Lemma initial_records_length self key :
  records_wf self →
  length (initial_records (records_of self key)) = 32%nat.
Proof.
  intros Hwf. destruct (Hwf key) as [[Hnil|Hlen] _]; unfold initial_records.
  - by rewrite Hnil.
  - by case_decide.
Qed.

Lemma initial_records_head self key :
  records_wf self → stochastic self = false →
  ∃ records, initial_records (records_of self key) = 0 :: records.
Proof.
  intros Hwf Hstoch. destruct (Hwf key) as [_ Hdet].
  destruct (Hdet Hstoch) as [[Hnil|Hhead] _]; unfold initial_records.
  - rewrite Hnil. by eexists.
  - destruct (records_of self key) as [|record records]; [done|].
    injection Hhead as ->. by eexists.
Qed.

(** In deterministic mode the loop of [remove_min] leaves with index 1 at
    dimension 1. *)
Lemma deterministic_selection self key g :
  records_wf self → diversification_wf self → stochastic self = false →
  retry (stochastic self) (initial_records (records_of self key))
        (dimension_of self key) g = ok (1, 1, g).
Proof.
  intros Hwf Hdiv Hstoch. rewrite Hstoch.
  pose proof (initial_records_length self key Hwf) as Hlen.
  pose proof (initial_records_nonneg _ (proj2 (Hdiv key))) as Hnonneg.
  destruct (initial_records_head self key Hwf Hstoch) as [records Hhead].
  rewrite Hhead in *. apply Forall_cons in Hnonneg as [_ Hnonneg].
  apply retry_head_zero; [done| |lia].
  destruct (Hwf key) as [_ Hdet]. destruct (Hdet Hstoch) as [_ Hdim].
  destruct (Hdiv key) as [Hdim0 _]. lia.
Qed.

(** The index that the loop of [remove_min] leaves with is below 32, the
    number of counts, so that the counts are not resized and the increment
    is in range. *)
Lemma selection_in_range self key g bucket_i dim g1 :
  records_wf self → diversification_wf self →
  retry (stochastic self) (initial_records (records_of self key))
        (dimension_of self key) g = ok (bucket_i, dim, g1) →
  let records := initial_records (records_of self key) in
  0 ≤ bucket_i < 32 ∧ grow_records records bucket_i = records ∧
  (∃ count,
     records !! Z.to_nat bucket_i = Some count ∧
     increment_record records bucket_i
       = ok (<[Z.to_nat bucket_i := to_uint (count + 1)]> records)) ∧
  (stochastic self = false → bucket_i = 1 ∧ dim = 1 ∧ g1 = g).
Proof.
  intros Hwf Hdiv Hretry records.
  pose proof (initial_records_length self key Hwf) as Hlen. fold records in Hlen.
  assert (0 ≤ bucket_i < 32 ∧
          (stochastic self = false → bucket_i = 1 ∧ dim = 1 ∧ g1 = g))
    as [Hi Hdet].
  { destruct (stochastic self) eqn:Hstoch.
    - split; [|done].
      apply retry_selects in Hretry as (_ & Hi & g0 & Hsel).
      unfold select_index in Hsel. fold records in Hsel.
      pose proof (random_index_below records dim g0) as Hbelow.
      rewrite Hsel in Hbelow. simpl in Hbelow.
      split; [done|]. rewrite Hlen in Hbelow. apply Hbelow; [|lia|done].
      intros Hnil. by rewrite Hnil in Hlen.
    - rewrite <- Hstoch in Hretry.
      rewrite (deterministic_selection self key g Hwf Hdiv Hstoch) in Hretry.
      injection Hretry as <- <- <-. split; [lia|done]. }
  split; [done|].
  assert (grow_records records bucket_i = records) as Hgrow.
  { unfold grow_records. rewrite Hlen.
    destruct (Z.leb_spec (Z.of_nat 32) bucket_i); [lia|done]. }
  split; [done|]. split; [|done].
  destruct (lookup_lt_is_Some_2 records (Z.to_nat bucket_i)) as [count Hcount];
    [lia|].
  exists count. split; [done|]. unfold increment_record. by rewrite Hcount.
Qed.

(** What a returning [remove_min] selected, on a list whose counts have
    their shape, and the shape of the counts it leaves. *)
Lemma remove_min_selection key self g entry key' self' g' :
  records_wf self → diversification_wf self →
  remove_min key self g = ok (entry, key', self', g') →
  ∃ it_first tbuckets i label tbucket,
    begin (buckets self) = Some (it_first, tbuckets) ∧
    tbuckets !! i = Some (label, tbucket) ∧ entry ∈ entries tbucket ∧
    (i < 32)%nat ∧ length (records_of self' it_first) = 32%nat ∧
    (stochastic self = false →
     i = 1%nat ∧ dimension_of self' it_first = 1) ∧
    records_wf self'.
Proof.
  intros Hwf Hdiv Hrm. apply remove_min_inv in Hrm
    as (k & tbs & i & dim & g1 & records & label & tb & tb' & _ & Hbegin &
        _ & Hretry & Hincr & Hit2 & _ & Hpop & ->).
  destruct (selection_in_range self k g i dim g1 Hwf Hdiv Hretry)
    as (Hi & Hgrow & (count & Hcount & Hincr') & Hdet).
  rewrite Hgrow, Hincr' in Hincr. injection Hincr as <-.
  pose proof (initial_records_length self k Hwf) as Hlen.
  exists k, tbs, (Z.to_nat i), label, tb.
  split; [done|]. split; [done|]. split; [by eapply pop_bucket_elem_of|].
  split; [lia|].
  assert (records_of
            (set_buckets
               (set_diversification (set_size self (size self - 1))
                  (<[k := <[Z.to_nat i := to_uint (count + 1)]>
                            (initial_records (records_of self k))]>
                     (expansion_records self))
                  (<[k := dim]> (current_dimension self)))
               (store_type_bucket k (Z.to_nat i) label tb' tbs (buckets self)))
            k
          = <[Z.to_nat i := to_uint (count + 1)]>
              (initial_records (records_of self k))) as Hrec.
  { unfold records_of at 1. simpl. by rewrite lookup_insert_eq. }
  rewrite Hrec, length_insert.
  split; [done|]. split.
  { intros Hstoch. destruct (Hdet Hstoch) as (-> & -> & _).
    split; [done|]. unfold dimension_of. simpl. by rewrite lookup_insert_eq. }
  intros k0. destruct (decide (k0 = k)) as [->|Hne].
  - rewrite Hrec, length_insert. split; [by right|].
    unfold stochastic at 1. simpl. intros Hstoch.
    destruct (Hdet Hstoch) as (-> & -> & _). split.
    + right. destruct (initial_records_head self k Hwf Hstoch) as [rest Hhead].
      by rewrite Hhead.
    + unfold dimension_of. simpl. by rewrite lookup_insert_eq.
  - unfold records_of, dimension_of. simpl.
    rewrite !lookup_insert_ne by done. apply Hwf.
Qed.

Lemma reachable_records_wf self : reachable self → records_wf self.
Proof.
  induction 1 as [pref_only queue stoch depth self Hnew
                 |self eval_context entry Hreach IH
                 |self key g entry key' self' g' Hreach IH Hrm].
  - unfold new_FractalOpenList in Hnew. destruct (0 <? depth); [|done].
    injection Hnew as <-. intros k. unfold records_of, dimension_of. simpl.
    rewrite !lookup_empty. simpl. split; [by left|]. intros _.
    split; [by left|lia].
  - intros k. unfold records_of, dimension_of.
    destruct (insert_diversification eval_context entry self) as [-> ->].
    destruct (insert_configuration eval_context entry self) as [-> _].
    apply IH.
  - destruct (remove_min_selection _ _ _ _ _ _ _ IH (reachable_wf _ Hreach) Hrm)
      as (k & tbs & i & label & tb & _ & _ & _ & _ & _ & _ & Hwf').
    exact Hwf'.
Qed.

(** X10: on every list that a search can reach, the usage counts of a key
    are 32 in number once the key has been popped from, and stay so: a call
    of [remove_min] that returns has popped a type bucket at a position
    below 32 and leaves 32 counts, so the branch that doubles the array is
    never taken and a type bucket at position 32 or beyond is never
    served. *)
Theorem remove_min_position_below_32 key self g entry key' self' g' :
  reachable self →
  remove_min key self g = ok (entry, key', self', g') →
  ∃ it_first tbuckets i label tbucket,
    begin (buckets self) = Some (it_first, tbuckets) ∧
    tbuckets !! i = Some (label, tbucket) ∧ entry ∈ entries tbucket ∧
    (i < 32)%nat ∧ length (records_of self' it_first) = 32%nat.
Proof.
  intros Hreach Hrm.
  destruct (remove_min_selection _ _ _ _ _ _ _ (reachable_records_wf _ Hreach)
              (reachable_wf _ Hreach) Hrm)
    as (k & tbs & i & label & tb & Hbegin & Hi & Hin & Hlt & Hlen & _).
  by exists k, tbs, i, label, tb.
Qed.

(** X11: in deterministic mode, on every list that a search can reach, a
    call of [remove_min] that returns has popped the type bucket at
    position 1, the second one of the least key, and leaves that key with
    dimension 1: the first type bucket of a key is never served and the
    dimension never goes beyond 1. *)
Theorem remove_min_deterministic_position_1 key self g entry key' self' g' :
  reachable self → stochastic self = false →
  remove_min key self g = ok (entry, key', self', g') →
  ∃ it_first tbuckets label tbucket,
    begin (buckets self) = Some (it_first, tbuckets) ∧
    tbuckets !! 1%nat = Some (label, tbucket) ∧ entry ∈ entries tbucket ∧
    dimension_of self' it_first = 1.
Proof.
  intros Hreach Hstoch Hrm.
  destruct (remove_min_selection _ _ _ _ _ _ _ (reachable_records_wf _ Hreach)
              (reachable_wf _ Hreach) Hrm)
    as (k & tbs & i & label & tb & Hbegin & Hi & Hin & _ & _ & Hdet & _).
  destruct (Hdet Hstoch) as [-> Hdim].
  by exists k, tbs, label, tb.
Qed.
End SelectedPositions.

Lemma example_two_types_reachable queue stoch :
  reachable (example_two_types queue stoch).
Proof.
  unfold example_two_types, example_single.
  do 4 apply reachable_insert.
  by apply (reachable_new false queue stoch 1000000).
Qed.

(** In stochastic mode a draw of 1 pops entry 1 from position 1. *)
Lemma remove_min_position_below_32_witness :
  ∃ self',
    remove_min None (example_two_types FIFO true) [1%nat]
      = ok (1%nat, None, self', []) ∧
    ∃ it_first tbuckets i label tbucket,
      begin (buckets (example_two_types FIFO true))
        = Some (it_first, tbuckets) ∧
      tbuckets !! i = Some (label, tbucket) ∧ 1%nat ∈ entries tbucket ∧
      (i < 32)%nat ∧ length (records_of self' it_first) = 32%nat.
Proof.
  eexists. split; [vm_compute; reflexivity|].
  apply (remove_min_position_below_32 None (example_two_types FIFO true)
           [1%nat] 1%nat None _ []).
  - apply example_two_types_reachable.
  - vm_compute; reflexivity.
Defined.

(** In deterministic mode entry 1 is popped from position 1. *)
Lemma remove_min_deterministic_position_1_witness :
  ∃ self',
    remove_min None (example_two_types FIFO false) []
      = ok (1%nat, None, self', []) ∧
    ∃ it_first tbuckets label tbucket,
      begin (buckets (example_two_types FIFO false))
        = Some (it_first, tbuckets) ∧
      tbuckets !! 1%nat = Some (label, tbucket) ∧ 1%nat ∈ entries tbucket ∧
      dimension_of self' it_first = 1.
Proof.
  eexists. split; [vm_compute; reflexivity|].
  apply (remove_min_deterministic_position_1 None
           (example_two_types FIFO false) [] 1%nat None _ []).
  - apply example_two_types_reachable.
  - reflexivity.
  - vm_compute; reflexivity.
Defined.

(** ** [remove_min] in deterministic mode, and its faults *)

Section RemoveMinForward.
Context {Entry : Type} `{!Sizeof Entry}.
Implicit Types (self : FractalOpenList Entry) (g : RandomNumberGenerator).

(** Buckets that are well formed and hold no entry are no buckets. *)
Lemma buckets_entries_zero (m : gmap Key (TypeBuckets Entry)) :
  buckets_wf m → buckets_entries m = 0%nat → m = ∅.
Proof.
  intros Hwf Hzero. apply map_empty. intros k.
  destruct (m !! k) as [tbs|] eqn:Hk; [exfalso|done].
  destruct (Hwf k tbs Hk) as [Hne Hall].
  destruct tbs as [|[label tb] tbs]; [done|].
  apply Forall_cons in Hall as [Htb _].
  pose proof (buckets_entries_positive _ _ _ label tb Hk ltac:(left) Htb).
  lia.
Qed.

(** Under FIFO and LIFO a queue that is not empty can be popped, unless
    the pop frees the node of the entry. *)
Lemma pop_bucket_nonempty (bucket : Bucket Entry) queue_type g :
  queue_type ≠ RANDOM → entries bucket ≠ [] →
  pop_reads_freed_node bucket queue_type = false →
  ∃ entry bucket', pop_bucket bucket queue_type g = ok (entry, bucket', g).
Proof.
  intros Hqueue Hne Hlive. destruct bucket as [slot l].
  destruct queue_type; [| |done].
  - destruct l as [|entry l]; [done|].
    exists entry, {| front_slot := S slot; entries := l |}.
    apply pop_bucket_FIFO. by apply bool_decide_eq_false in Hlive.
  - destruct l as [|entry l _] using rev_ind; [done|].
    exists entry, {| front_slot := slot; entries := l |}.
    apply pop_bucket_LIFO.
Qed.

(** A pop that frees the node of the entry reads freed storage. *)
Lemma pop_bucket_freed (bucket : Bucket Entry) queue_type g :
  entries bucket ≠ [] → pop_reads_freed_node bucket queue_type = true →
  pop_bucket bucket queue_type g = fault UseAfterFree.
Proof.
  intros Hne Hfreed. destruct bucket as [slot l].
  destruct queue_type; [|done..].
  destruct l as [|entry l]; [done|].
  apply pop_bucket_FIFO_freed. by apply bool_decide_eq_true in Hfreed.
Qed.

(** The faults of a pop: the empty queue and the freed node. *)
Lemma pop_bucket_fault (bucket : Bucket Entry) queue_type g f :
  pop_bucket bucket queue_type g = fault f →
  f = EmptyBucket ∨
  f = UseAfterFree ∧ pop_reads_freed_node bucket queue_type = true.
Proof.
  unfold pop_bucket, pop_reads_freed_node. destruct queue_type.
  - destruct (entries bucket !! 0%nat); [|intros [= <-]; by left].
    cbn [or_fault rbind ok].
    destruct (front_node_freed bucket); [|done]. intros [= <-]. by right.
  - destruct (entries bucket !! back_slot bucket); [done|].
    intros [= <-]. by left.
  - destruct (g_rng _ g) as [i g0].
    destruct (entries bucket !! back_slot bucket); [|intros [= <-]; by left].
    cbn [or_fault rbind ok].
    destruct (<[Z.to_nat i:=e]> (entries bucket) !! Z.to_nat i); [done|].
    intros [= <-]. by left.
Qed.

(** Under RANDOM a queue that is not empty and has fewer than [2^31]
    entries can be popped. *)
Lemma pop_bucket_RANDOM_nonempty (bucket : Bucket Entry) g :
  entries bucket ≠ [] → Z.of_nat (length (entries bucket)) < 2 ^ 31 →
  ∃ entry bucket' g', pop_bucket bucket RANDOM g = ok (entry, bucket', g').
Proof.
  intros Hne Hlen.
  assert (0 < length (entries bucket))%nat as Hpos
    by (destruct (entries bucket); [done|simpl; lia]).
  unfold pop_bucket. rewrite to_int_small by lia.
  pose proof (g_rng_range (Z.of_nat (length (entries bucket))) g ltac:(lia))
    as Hdraw.
  destruct (g_rng _ g) as [i g0]. simpl in Hdraw.
  destruct (entries bucket !! back_slot bucket) as [last|] eqn:Hlast.
  2: { apply lookup_ge_None in Hlast. unfold back_slot in Hlast. lia. }
  cbn [or_fault rbind ok].
  rewrite list_lookup_insert_eq by lia. cbn [or_fault rbind ok].
  by eexists _, _, _.
Qed.

(** A type bucket holds no more entries than all the buckets. *)
Lemma buckets_entries_bound (m : gmap Key (TypeBuckets Entry)) k tbuckets
    label (tbucket : Bucket Entry) :
  m !! k = Some tbuckets → (label, tbucket) ∈ tbuckets →
  (length (entries tbucket) ≤ buckets_entries m)%nat.
Proof.
  intros Hk Hin. pose proof (buckets_entries_delete m k tbuckets Hk).
  pose proof (sum_list_with_in _ (λ tb : Z * Bucket Entry, length (entries tb.2)) _ Hin)
    as Hle.
  change (length (entries tbucket) ≤ tbuckets_entries tbuckets)%nat in Hle.
  bucket_lia.
Qed.

(** In deterministic mode [remove_min] goes on from the selection with
    index 1 and dimension 1, whatever the list holds. *)
Lemma remove_min_deterministic_eval key self g it_first tbuckets :
  records_wf self → diversification_wf self → stochastic self = false →
  0 < size self → begin (buckets self) = Some (it_first, tbuckets) →
  tbuckets ≠ [] → key = None ∨ key = Some [] →
  ∃ records,
    remove_min key self g =
    ('(label, tbucket) ←!
       or_fault (tbuckets !! 1%nat) (NoLiveTypeBucket 1 (length tbuckets));
     _ ←! assert (negb (bool_decide (entries tbucket = []))) TypeBucketNonEmpty;
     '(entry, tbucket', g') ←! pop_bucket tbucket (queue_type self) g;
     ok (entry, (λ _, it_first) <$> key,
         set_buckets
           (set_diversification (set_size self (size self - 1))
              (<[it_first := records]> (expansion_records self))
              (<[it_first := 1]> (current_dimension self)))
           (store_type_bucket it_first 1 label tbucket' tbuckets
              (buckets self)),
         g')).
Proof.
  intros Hwf Hdiv Hstoch Hsize Hbegin Hne Hkey.
  pose proof (deterministic_selection self it_first g Hwf Hdiv Hstoch) as Hretry.
  destruct (selection_in_range self it_first g 1 1 g Hwf Hdiv Hretry)
    as (_ & Hgrow & (count & Hcount & Hincr) & _).
  exists (<[1%nat := to_uint (count + 1)]>
            (initial_records (records_of self it_first))).
  unfold remove_min.
  replace (0 <? size self) with true by (symmetry; by apply Z.ltb_lt).
  cbn [assert rbind ok buckets set_size]. rewrite Hbegin.
  cbn [or_fault rbind ok]. rewrite bool_decide_eq_false_2 by done.
  cbn [negb assert rbind ok].
  assert ((key0 ←! match key with
                   | Some v =>
                       _ ←! assert (bool_decide (v = [])) KeySlotEmpty;
                       ok (Some it_first)
                   | None => ok None
                   end; ok key0) = ok ((λ _, it_first) <$> key)) as Hslot.
  { by destruct Hkey as [->| ->]. }
  destruct Hkey as [->| ->]; cbn [bool_decide_true assert rbind ok fmap option_fmap option_map];
    change (records_of (set_size self (size self - 1)) it_first)
      with (records_of self it_first);
    change (dimension_of (set_size self (size self - 1)) it_first)
      with (dimension_of self it_first);
    change (stochastic (set_size self (size self - 1))) with (stochastic self);
    rewrite ?bool_decide_eq_true_2 by done; cbn [assert rbind ok];
    rewrite Hretry; cbn [rbind ok]; rewrite Hgrow, Hincr; cbn [rbind ok];
    reflexivity.
Qed.

(** X12: in deterministic mode, under FIFO or LIFO, on every list that a
    search can reach and that is not empty, [remove_min] called with no key
    slot or an empty one returns exactly when the least key has a second
    type bucket and the pop of it does not free the node of its front: it
    then returns what a pop of that type bucket returns and stores the
    least key in the key slot, and it leaves the generator alone.  When the
    pop frees the node (under FIFO, the front being the last slot of its
    node), the entry is read from freed storage; when the least key has one
    type bucket only, the call ends in the selection of position 1, which
    is not there. *)
Theorem remove_min_deterministic_returns key self g it_first tbuckets :
  reachable self → stochastic self = false → queue_type self ≠ RANDOM →
  begin (buckets self) = Some (it_first, tbuckets) →
  key = None ∨ key = Some [] →
  match tbuckets !! 1%nat with
  | Some (label, tbucket) =>
      if pop_reads_freed_node tbucket (queue_type self)
      then remove_min key self g = fault UseAfterFree
      else
        ∃ entry tbucket' self',
          pop_bucket tbucket (queue_type self) g = ok (entry, tbucket', g) ∧
          remove_min key self g = ok (entry, (λ _, it_first) <$> key, self', g)
  | None =>
      remove_min key self g = fault (NoLiveTypeBucket 1 (length tbuckets))
  end.
Proof.
  intros Hreach Hstoch Hqueue Hbegin Hkey.
  destruct (reachable_bookkeeping self Hreach) as [Hwf Hsize].
  pose proof (begin_lookup _ _ _ Hbegin) as Hlookup.
  destruct (Hwf _ _ Hlookup) as [Hne Hall].
  assert (0 < size self) as Hpos.
  { destruct tbuckets as [|[label tb] tbs]; [done|].
    pose proof (proj1 (Forall_cons_1 _ _ _ Hall)) as Htb.
    pose proof (buckets_entries_positive _ _ _ label tb Hlookup ltac:(left) Htb).
    unfold stored in Hsize. lia. }
  destruct (remove_min_deterministic_eval key self g it_first tbuckets
              (reachable_records_wf _ Hreach) (reachable_wf _ Hreach)
              Hstoch Hpos Hbegin Hne Hkey) as [records ->].
  destruct (tbuckets !! 1%nat) as [[label tbucket]|] eqn:Hsecond; [|done].
  cbn [or_fault rbind ok].
  assert (entries tbucket ≠ []) as Htb.
  { by apply (Forall_lookup_1 _ _ _ _ Hall Hsecond). }
  rewrite bool_decide_eq_false_2 by done. cbn [negb assert rbind ok].
  destruct (pop_reads_freed_node tbucket (queue_type self)) eqn:Hfreed.
  - by rewrite pop_bucket_freed.
  - destruct (pop_bucket_nonempty tbucket (queue_type self) g Hqueue Htb Hfreed)
      as (entry & tbucket' & Hpop).
    exists entry, tbucket'. rewrite Hpop. cbn [rbind ok]. by eexists.
Qed.
End RemoveMinForward.

(** From the list with two type buckets, entry 1 is returned: the front of
    the second type bucket stands at the first slot of its node. *)
Lemma remove_min_deterministic_returns_witness :
  (∃ entry tbucket' self',
     pop_bucket {| front_slot := 0; entries := [1; 2; 3]%nat |} FIFO []
       = ok (entry, tbucket', []) ∧
     remove_min (Some []) (example_two_types FIFO false) []
       = ok (entry, Some [3], self', [])).
Proof.
  exact (remove_min_deterministic_returns (Some [])
           (example_two_types FIFO false) [] [3]
           [(0, {| front_slot := 0; entries := [7%nat] |});
            (1, {| front_slot := 0; entries := [1; 2; 3]%nat |})]
           (example_two_types_reachable FIFO false) eq_refl
           ltac:(discriminate) ltac:(vm_compute; reflexivity)
           (or_intror eq_refl)).
Defined.

(** ** Entries of one type bucket under FIFO *)

Section FifoOrder.
Context {Entry : Type} `{!Sizeof Entry}.
Implicit Types (self : FractalOpenList Entry) (g : RandomNumberGenerator).

(** An insertion with a context that is preferred and no dead end is the
    insertion of the base class. *)
Lemma insert_example_context key label (entry : Entry) self :
  (insert (example_context key label) entry self).1.1
  = typed_do_insertion (example_context key label) entry self.
Proof. apply insert_buckets; [apply andb_false_r|done]. Qed.

(** The steps of a run. *)
Lemma run_Insert eval_context (entry : Entry) ops self g :
  run (Insert eval_context entry :: ops) self g
  = run ops (insert eval_context entry self).1.1 g.
Proof. reflexivity. Qed.

Lemma run_RemoveMin_ok key (ops : list (Operation Entry)) self g
    entry key' self' g' :
  remove_min key self g = ok (entry, key', self', g') →
  run (RemoveMin key :: ops) self g
  = (entry :: (run ops self' g').1, (run ops self' g').2).
Proof.
  intros Hrm. cbn [run]. rewrite Hrm. unfold ok.
  by destruct (run ops self' g').
Qed.

Lemma run_RemoveMin_fault key (ops : list (Operation Entry)) self g f :
  remove_min key self g = fault f →
  run (RemoveMin key :: ops) self g = ([], fault f).
Proof. intros Hrm. cbn [run]. by rewrite Hrm. Qed.

(** C8, the entries are not popped: three entries are inserted in the
    order A, B, C under one key and one type label into a new deterministic
    FIFO list, where they stand in one queue in that order, A at the front;
    [remove_min] then selects position 1 of the one type bucket there is.
    No call returns an entry, and the run of three calls ends in the first
    with nothing popped. *)
Theorem remove_min_FIFO_pops_nothing pref_only depth self key label
    (A B C : Entry) g :
  new_FractalOpenList pref_only FIFO false depth = Some self →
  let eval_context := example_context key label in
  let inserted :=
    (insert eval_context C
       (insert eval_context B (insert eval_context A self).1.1).1.1).1.1 in
  buckets inserted
    = {[key := [(label, {| front_slot := 0; entries := [A; B; C] |})]]} ∧
  size inserted = 3 ∧
  (∀ key_slot, key_slot = None ∨ key_slot = Some [] →
     remove_min key_slot inserted g = fault (NoLiveTypeBucket 1 1)) ∧
  run [Insert eval_context A; Insert eval_context B; Insert eval_context C;
       RemoveMin None; RemoveMin None; RemoveMin None] self g
    = ([], fault (NoLiveTypeBucket 1 1)).
Proof.
  intros Hnew eval_context inserted.
  assert (reachable inserted) as Hreach.
  { do 3 apply reachable_insert. by eapply reachable_new. }
  assert (buckets inserted
            = {[key := [(label, {| front_slot := 0; entries := [A; B; C] |})]]}
          ∧ size inserted = 3 ∧ stochastic inserted = false) as (Hb & Hsize & Hstoch).
  { subst inserted eval_context. rewrite !insert_example_context.
    unfold new_FractalOpenList in Hnew.
    destruct (0 <? depth); [|done]. injection Hnew as <-.
    unfold typed_do_insertion.
    cbn [buckets size stochastic set_size set_buckets eval_key eval_type
         example_context].
    rewrite lookup_empty. cbn [from_option id]. rewrite push_typed_new.
    rewrite !lookup_insert_eq. cbn [from_option id].
    rewrite !push_typed_found, !insert_insert_eq.
    split; [apply insert_empty|done]. }
  assert (∀ key_slot, key_slot = None ∨ key_slot = Some [] →
            remove_min key_slot inserted g = fault (NoLiveTypeBucket 1 1))
    as Hrm.
  { intros key_slot Hslot.
    destruct (remove_min_deterministic_eval key_slot inserted g key
                [(label, {| front_slot := 0; entries := [A; B; C] |})]
                (reachable_records_wf _ Hreach) (reachable_wf _ Hreach)
                Hstoch ltac:(lia)) as [records ->]; [|done..].
    rewrite Hb. apply begin_singleton. }
  split; [exact Hb|]. split; [exact Hsize|]. split; [exact Hrm|].
  rewrite !run_Insert. apply run_RemoveMin_fault, Hrm. by left.
Qed.
End FifoOrder.

(** The entries 1, 2, 3 under key 3 and type label 0: none is popped. *)
Lemma remove_min_FIFO_pops_nothing_witness :
  run [Insert (example_context [3] 0) 1%nat;
       Insert (example_context [3] 0) 2%nat;
       Insert (example_context [3] 0) 3%nat;
       RemoveMin None; RemoveMin None; RemoveMin None]
      (example_new FIFO false) []
    = ([], fault (NoLiveTypeBucket 1 1)).
Proof.
  exact (proj2 (proj2 (proj2
           (remove_min_FIFO_pops_nothing false 1000000 (example_new FIFO false)
              [3] 0 1%nat 2%nat 3%nat [] eq_refl)))).
Defined.

(** ** The node of storage under FIFO *)

Section FifoNode.
Context {Entry : Type} `{!Sizeof Entry}.
Implicit Types (self : FractalOpenList Entry) (g : RandomNumberGenerator).

(** A run of insertions under one context. *)
Lemma run_inserts eval_context (l : list Entry) ops self g :
  run ((Insert eval_context <$> l) ++ ops) self g
  = run ops (foldl (λ self entry, (insert eval_context entry self).1.1) self l) g.
Proof.
  revert self. induction l as [|entry l IH]; intros self; [done|].
  cbn [fmap list_fmap app foldl]. rewrite run_Insert. apply IH.
Qed.

(** Entries inserted under the label of the second type bucket of a key
    are pushed at the back of its queue; a first entry under a label that
    is new makes the second type bucket. *)
Lemma inserts_second_bucket key label0 label1 b0 slot es (l : list Entry)
    self :
  label0 ≠ label1 →
  buckets self
    = {[key := [(label0, b0);
                (label1, {| front_slot := slot; entries := es |})]]} →
  let self' :=
    foldl (λ self entry, (insert (example_context key label1) entry self).1.1)
      self l in
  buckets self'
    = {[key := [(label0, b0);
                (label1, {| front_slot := slot; entries := es ++ l |})]]} ∧
  stochastic self' = stochastic self ∧ queue_type self' = queue_type self ∧
  (reachable self → reachable self').
Proof.
  intros Hlabel. revert es self.
  induction l as [|entry l IH]; intros es self Hb self'; subst self';
    cbn [foldl].
  { by rewrite app_nil_r. }
  set (self1 := (insert (example_context key label1) entry self).1.1).
  assert (buckets self1
            = {[key := [(label0, b0);
                        (label1, {| front_slot := slot;
                                    entries := es ++ [entry] |})]]}) as Hb1.
  { subst self1. rewrite insert_example_context. unfold typed_do_insertion.
    cbn [buckets set_size set_buckets eval_key eval_type example_context].
    rewrite Hb, lookup_singleton_eq. cbn [from_option id].
    rewrite insert_singleton_eq. f_equal.
    unfold push_typed. cbn [list_find fst]. rewrite decide_False by done.
    cbn [fmap option_fmap option_map list_find fst].
    by rewrite decide_True. }
  destruct (IH (es ++ [entry]) self1 Hb1) as (Hb' & Hstoch & Hqueue & Hreach).
  destruct (insert_configuration (example_context key label1) entry self)
    as [Hstoch1 Hqueue1].
  rewrite <- (assoc_L (++)) in Hb'. split; [exact Hb'|].
  split; [rewrite Hstoch; exact Hstoch1|].
  split; [rewrite Hqueue; exact Hqueue1|].
  intros Hself. apply Hreach. by apply reachable_insert.
Qed.

(** One call of [remove_min] on a deterministic FIFO list whose least key
    has two type buckets: the front of the second is returned, unless it
    stands in the last slot of its node. *)
Lemma remove_min_FIFO_second self g key tb0 label slot entry es :
  reachable self → stochastic self = false → queue_type self = FIFO →
  buckets self
    = {[key := [tb0; (label, {| front_slot := slot;
                                entries := entry :: es |})]]} →
  (S slot = deque_buf_size sizeof →
   remove_min None self g = fault UseAfterFree) ∧
  (S slot ≠ deque_buf_size sizeof → es ≠ [] →
   ∃ self',
     remove_min None self g = ok (entry, None, self', g) ∧
     buckets self'
       = {[key := [tb0; (label, {| front_slot := S slot;
                                   entries := es |})]]}).
Proof.
  intros Hreach Hstoch Hqueue Hb.
  set (tbuckets := [tb0; (label, {| front_slot := slot;
                                    entries := entry :: es |})]) in *.
  destruct (reachable_bookkeeping self Hreach) as [Hwf Hsize].
  assert (buckets self !! key = Some tbuckets) as Hlookup
    by (by rewrite Hb, lookup_singleton_eq).
  assert (0 < size self) as Hpos.
  { pose proof (buckets_entries_positive _ _ _ label
                  {| front_slot := slot; entries := entry :: es |} Hlookup
                  ltac:(right; left) ltac:(done)).
    unfold stored in Hsize. lia. }
  assert (begin (buckets self) = Some (key, tbuckets)) as Hbegin
    by (rewrite Hb; apply begin_singleton).
  destruct (remove_min_deterministic_eval None self g key tbuckets
              (reachable_records_wf _ Hreach) (reachable_wf _ Hreach)
              Hstoch Hpos Hbegin ltac:(done) (or_introl eq_refl))
    as [records Heval].
  rewrite Hqueue in Heval. subst tbuckets.
  cbn [lookup list_lookup or_fault rbind ok entries] in Heval.
  rewrite bool_decide_eq_false_2 in Heval by done.
  cbn [negb assert rbind ok] in Heval. split.
  - intros Hlast. by rewrite pop_bucket_FIFO_freed in Heval.
  - intros Hlast Hes. rewrite pop_bucket_FIFO in Heval by done.
    cbn [rbind ok fmap option_fmap option_map] in Heval.
    eexists. split; [exact Heval|].
    cbn [buckets set_buckets set_diversification set_size].
    unfold store_type_bucket. cbn [entries].
    rewrite bool_decide_eq_false_2 by done.
    rewrite Hb, insert_singleton_eq. reflexivity.
Qed.

(** As many calls as the node of the front has slots after it. *)
Lemma run_FIFO_second n self g key tb0 label slot es ops :
  reachable self → stochastic self = false → queue_type self = FIFO →
  buckets self
    = {[key := [tb0; (label, {| front_slot := slot; entries := es |})]]} →
  (n < length es)%nat → (slot + n < deque_buf_size sizeof)%nat →
  ∃ self',
    run (replicate n (RemoveMin None) ++ ops) self g
      = (take n es ++ (run ops self' g).1, (run ops self' g).2) ∧
    reachable self' ∧ stochastic self' = false ∧ queue_type self' = FIFO ∧
    buckets self'
      = {[key := [tb0; (label, {| front_slot := slot + n;
                                  entries := drop n es |})]]}.
Proof.
  revert self slot es. induction n as [|n IH];
    intros self slot es Hreach Hstoch Hqueue Hb Hn Hslot.
  { exists self. rewrite Nat.add_0_r. cbn [replicate app take drop].
    by destruct (run ops self g). }
  destruct es as [|entry es]; [simpl in Hn; lia|]. cbn [length] in Hn.
  destruct (remove_min_FIFO_second self g key tb0 label slot entry es
              Hreach Hstoch Hqueue Hb) as [_ Hstep].
  destruct Hstep as (self1 & Hrm & Hb1); [lia|by destruct es; [simpl in Hn; lia|]|].
  destruct (remove_min_configuration _ _ _ _ _ _ _ Hrm) as [Hstoch1 Hqueue1].
  destruct (IH self1 (S slot) es) as (self' & Hrun & Hreach' & Hs' & Hq' & Hb');
    [by eapply reachable_remove_min|congruence|congruence|done|lia|lia|].
  exists self'. split; [|split; [done|split; [done|split; [done|]]]].
  - cbn [replicate app].
    etrans; [exact (run_RemoveMin_ok _ _ _ _ _ _ _ _ Hrm)|].
    by rewrite Hrun.
  - rewrite Hb'. cbn [drop]. by rewrite Nat.add_succ_comm.
Qed.

(** X15: the entries of a type bucket beyond the first node of its queue
    are out of reach under FIFO.  Into a new deterministic FIFO list one
    entry is inserted under a key and a type label, and under the same key
    and another label as many entries as a node of the deque has slots, or
    more.  The calls of [remove_min] then return the entries of the second
    type bucket in the order of their insertion, one fewer than a node has
    slots; the next call pops the entry in the last slot of the node,
    [pop_front] frees the node, and the entry is read from freed
    storage. *)
Theorem remove_min_FIFO_reads_freed_node pref_only depth self key
    label0 label1 (entry0 : Entry) (l : list Entry) g :
  new_FractalOpenList pref_only FIFO false depth = Some self →
  label0 ≠ label1 → (deque_buf_size sizeof ≤ length l)%nat →
  let n := (deque_buf_size sizeof - 1)%nat in
  run (Insert (example_context key label0) entry0 ::
       (Insert (example_context key label1) <$> l) ++
       replicate n (RemoveMin None) ++ [RemoveMin None]) self g
    = (take n l, fault UseAfterFree).
Proof.
  intros Hnew Hlabel Hlen n.
  assert (0 < deque_buf_size sizeof)%nat as Hbuf.
  { unfold deque_buf_size. destruct (sizeof <? 512)%positive eqn:Hsize; [|lia].
    apply Pos.ltb_lt in Hsize.
    assert (1 ≤ 512 / N.pos sizeof)%N; [|lia].
    apply N.div_le_lower_bound; lia. }
  destruct l as [|entry1 l]; [simpl in Hlen; lia|].
  rewrite run_Insert. cbn [fmap list_fmap app]. rewrite run_Insert.
  set (self0 := (insert (example_context key label0) entry0 self).1.1).
  set (self1 := (insert (example_context key label1) entry1 self0).1.1).
  assert (reachable self1) as Hreach1.
  { do 2 apply reachable_insert. by eapply reachable_new. }
  assert (buckets self1
            = {[key := [(label0, {| front_slot := 0; entries := [entry0] |});
                        (label1, {| front_slot := 0; entries := [entry1] |})]]}
          ∧ stochastic self1 = false ∧ queue_type self1 = FIFO)
    as (Hb1 & Hstoch1 & Hqueue1).
  { subst self1 self0. rewrite !insert_example_context.
    unfold new_FractalOpenList in Hnew.
    destruct (0 <? depth); [|done]. injection Hnew as <-.
    unfold typed_do_insertion.
    cbn [buckets stochastic queue_type set_size set_buckets eval_key
         eval_type example_context].
    rewrite lookup_empty. cbn [from_option id]. rewrite push_typed_new.
    rewrite lookup_insert_eq. cbn [from_option id].
    rewrite insert_insert_eq, insert_empty.
    split; [|done]. f_equal.
    unfold push_typed. cbn [list_find fst]. rewrite decide_False by done.
    reflexivity. }
  rewrite run_inserts.
  destruct (inserts_second_bucket key label0 label1
              {| front_slot := 0; entries := [entry0] |} 0 [entry1] l self1
              Hlabel Hb1) as (Hb & Hstoch & Hqueue & Hreach).
  set (self2 := foldl _ self1 l) in *. cbn [app] in Hb.
  cbn [length] in Hlen.
  destruct (run_FIFO_second n self2 g key
              (label0, {| front_slot := 0; entries := [entry0] |}) label1 0
              (entry1 :: l) [RemoveMin None])
    as (self3 & Hrun & Hreach3 & Hstoch3 & Hqueue3 & Hb3);
    [by apply Hreach|congruence|congruence|done|
     subst n; cbn [length]; lia|subst n; lia|].
  rewrite Hrun. cbn [Nat.add] in Hb3.
  destruct (drop n (entry1 :: l)) as [|entry es] eqn:Hdrop.
  { apply (f_equal length) in Hdrop. rewrite length_drop in Hdrop.
    subst n. cbn [length] in Hdrop. lia. }
  destruct (remove_min_FIFO_second self3 g key _ label1 n entry es
              Hreach3 Hstoch3 Hqueue3 Hb3) as [Hfreed _].
  rewrite (run_RemoveMin_fault None [] self3 g UseAfterFree)
    by (apply Hfreed; subst n; lia).
  cbn [fst snd]. by rewrite app_nil_r.
Qed.
End FifoNode.

(** Entries of four bytes, 128 to a node: of the entries 1 to 128 under
    the second type label, 127 come out in order, and the call for the last
    reads the node that has been freed. *)
Lemma remove_min_FIFO_reads_freed_node_witness :
  run (Insert (example_context [3] 0) 0%nat ::
       (Insert (example_context [3] 1) <$> seq 1 128) ++
       replicate 127 (RemoveMin None) ++ [RemoveMin None])
      (example_new FIFO false) []
    = (seq 1 127, fault UseAfterFree).
Proof.
  exact (remove_min_FIFO_reads_freed_node false 1000000 (example_new FIFO false)
           [3] 0 1 0%nat (seq 1 128) [] eq_refl ltac:(discriminate)
           ltac:(vm_compute; lia)).
Defined.

Section RemoveMinFaults.
Context {Entry : Type} `{!Sizeof Entry}.
Implicit Types (self : FractalOpenList Entry) (g : RandomNumberGenerator).

(** The faults of [remove_min] from the selection on. *)
Lemma remove_min_faults_selection self g f it_first tbuckets
    (key : option Key) :
  records_wf self → diversification_wf self →
  Forall (λ tb : Z * Bucket Entry, entries tb.2 ≠ []) tbuckets →
  ('(bucket_i, dim, g) ←!
     retry (stochastic self) (initial_records (records_of self it_first))
       (dimension_of self it_first) g;
   records ←!
     increment_record
       (grow_records (initial_records (records_of self it_first)) bucket_i)
       bucket_i;
   '(label, tbucket) ←!
     or_fault (tbuckets !! Z.to_nat bucket_i)
       (NoLiveTypeBucket bucket_i (length tbuckets));
   _ ←! assert (negb (bool_decide (entries tbucket = []))) TypeBucketNonEmpty;
   '(entry, tbucket, g) ←! pop_bucket tbucket (queue_type self) g;
   ok (entry, key,
       set_buckets
         (set_diversification (set_size self (size self - 1))
            (<[it_first := records]> (expansion_records self))
            (<[it_first := dim]> (current_dimension self)))
         (store_type_bucket it_first (Z.to_nat bucket_i) label tbucket
            tbuckets (buckets self)),
       g)) = fault f →
  (f = SignedOverflow ∧ stochastic self = true) ∨
  (∃ bucket_i,
     f = NoLiveTypeBucket bucket_i (length tbuckets) ∧
     Z.of_nat (length tbuckets) ≤ bucket_i < 32) ∨
  (f = EmptyBucket ∧ queue_type self = RANDOM ∧
   ∃ label tbucket,
     (label, tbucket) ∈ tbuckets ∧
     2 ^ 31 ≤ Z.of_nat (length (entries tbucket))) ∨
  (f = UseAfterFree ∧ queue_type self = FIFO ∧
   ∃ label tbucket,
     (label, tbucket) ∈ tbuckets ∧ front_node_freed tbucket = true).
Proof.
  intros Hrec Hdiv Hall Hrun.
  destruct (retry _ _ _ g) as [f0|[[bucket_i dim] g1]] eqn:Hretry;
    cbn [rbind ok] in Hrun.
  { injection Hrun as <-.
    pose proof (retry_fault _ _ _ _ _ Hretry) as ->.
    left. split; [done|].
    destruct (stochastic self) eqn:Hstoch; [done|].
    pose proof (deterministic_selection self it_first g Hrec Hdiv Hstoch)
      as Hsel.
    rewrite Hstoch in Hsel. rewrite Hsel in Hretry. discriminate. }
  destruct (selection_in_range self it_first g bucket_i dim g1 Hrec Hdiv
              Hretry) as (Hrange & Hgrow & (count & _ & Hincr) & _).
  rewrite Hgrow, Hincr in Hrun. cbn [rbind ok] in Hrun.
  destruct (tbuckets !! Z.to_nat bucket_i) as [[label tbucket]|] eqn:Hslot;
    cbn [or_fault rbind ok] in Hrun.
  2: { injection Hrun as <-. right; left.
       exists bucket_i. split; [done|].
       apply lookup_ge_None in Hslot. bucket_lia. }
  assert (entries tbucket ≠ []) as Htb.
  { by apply (Forall_lookup_1 _ _ _ _ Hall Hslot). }
  rewrite bool_decide_eq_false_2 in Hrun by done.
  cbn [negb assert rbind ok] in Hrun.
  destruct (pop_bucket tbucket (queue_type self) g1)
    as [f0|[[entry tbucket'] g2]] eqn:Hpop; cbn [rbind ok] in Hrun; [|done].
  injection Hrun as <-. right; right.
  assert ((label, tbucket) ∈ tbuckets) as Hin
    by (by eapply list_elem_of_lookup_2).
  destruct (pop_reads_freed_node tbucket (queue_type self)) eqn:Hfreed.
  { rewrite pop_bucket_freed in Hpop by done. injection Hpop as <-.
    right. split; [done|].
    destruct (queue_type self); [|done..].
    split; [done|]. by exists label, tbucket. }
  left. destruct (pop_bucket_fault _ _ _ _ Hpop) as [->|[_ Hfreed']];
    [|congruence].
  split; [done|]. destruct (queue_type self) eqn:Hqueue.
  - destruct (pop_bucket_nonempty tbucket FIFO g1 ltac:(done) Htb Hfreed)
      as (? & ? & Hok). rewrite Hok in Hpop. discriminate.
  - destruct (pop_bucket_nonempty tbucket LIFO g1 ltac:(done) Htb Hfreed)
      as (? & ? & Hok). rewrite Hok in Hpop. discriminate.
  - split; [done|]. exists label, tbucket. split; [done|].
    destruct (Z.lt_ge_cases (Z.of_nat (length (entries tbucket))) (2 ^ 31))
      as [Hsmall|Hbig]; [|exact Hbig].
    destruct (pop_bucket_RANDOM_nonempty tbucket g1 Htb Hsmall)
      as (? & ? & ? & Hok). rewrite Hok in Hpop. discriminate.
Qed.

(** X13: how [remove_min] can fail on a list that a search can reach.  The
    assertions on the buckets ([!buckets.empty()], [!it->second.empty()],
    [!tbucket.empty()]) never fail and [records[bucket_i]] is never out of
    range.  What is left: the list is empty ([size > 0] fails, and then the
    buckets are empty indeed); the key slot is not empty; in stochastic
    mode, [dim++] overflows; the selected position, which is below 32, is
    not below the number of type buckets of the least key; under RANDOM, the
    pop fails, which takes a queue of [2^31] entries or more, so that
    [size], an [int], has overflowed; under FIFO, the front of the type
    bucket popped is the last slot of its node, and the entry is read from
    the node that [pop_front] has freed. *)
Theorem remove_min_faults key self g f :
  reachable self →
  remove_min key self g = fault f →
  (f = AssertionFailed SizePositive ∧ buckets self = ∅) ∨
  (f = AssertionFailed KeySlotEmpty ∧ ∃ v, key = Some v ∧ v ≠ []) ∨
  (f = SignedOverflow ∧ stochastic self = true) ∨
  (∃ it_first tbuckets bucket_i,
     f = NoLiveTypeBucket bucket_i (length tbuckets) ∧
     begin (buckets self) = Some (it_first, tbuckets) ∧
     Z.of_nat (length tbuckets) ≤ bucket_i < 32) ∨
  (f = EmptyBucket ∧ queue_type self = RANDOM ∧ 2 ^ 31 ≤ size self) ∨
  (f = UseAfterFree ∧ queue_type self = FIFO ∧
   ∃ it_first tbuckets label tbucket,
     begin (buckets self) = Some (it_first, tbuckets) ∧
     (label, tbucket) ∈ tbuckets ∧ front_node_freed tbucket = true).
Proof.
  intros Hreach Hrun.
  destruct (reachable_bookkeeping self Hreach) as [Hwf Hsize].
  pose proof (reachable_records_wf _ Hreach) as Hrec.
  pose proof (reachable_wf _ Hreach) as Hdiv.
  unfold remove_min in Hrun.
  destruct (0 <? size self) eqn:Hpos; cbn [assert rbind ok] in Hrun.
  2: { left. injection Hrun as <-. split; [done|].
       apply Z.ltb_ge in Hpos. apply buckets_entries_zero; [done|].
       unfold stored in Hsize. lia. }
  apply Z.ltb_lt in Hpos. cbn [buckets set_size] in Hrun.
  destruct (begin (buckets self)) as [[it_first tbuckets]|] eqn:Hbegin;
    cbn [or_fault rbind ok] in Hrun.
  2: { apply begin_None in Hbegin. unfold stored in Hsize.
       rewrite Hbegin in Hsize. unfold buckets_entries in Hsize.
       rewrite map_fold_empty in Hsize. lia. }
  pose proof (begin_lookup _ _ _ Hbegin) as Hlookup.
  destruct (Hwf _ _ Hlookup) as [Hne Hall].
  rewrite bool_decide_eq_false_2 in Hrun by done.
  cbn [negb assert rbind ok] in Hrun.
  assert ((f = SignedOverflow ∧ stochastic self = true) ∨
          (∃ bucket_i,
             f = NoLiveTypeBucket bucket_i (length tbuckets) ∧
             Z.of_nat (length tbuckets) ≤ bucket_i < 32) ∨
          (f = EmptyBucket ∧ queue_type self = RANDOM ∧
           ∃ label tbucket,
             (label, tbucket) ∈ tbuckets ∧
             2 ^ 31 ≤ Z.of_nat (length (entries tbucket))) ∨
          (f = UseAfterFree ∧ queue_type self = FIFO ∧
           ∃ label tbucket,
             (label, tbucket) ∈ tbuckets ∧ front_node_freed tbucket = true)
          → (f = AssertionFailed SizePositive ∧ buckets self = ∅) ∨
            (f = AssertionFailed KeySlotEmpty ∧
               ∃ v, key = Some v ∧ v ≠ []) ∨
            (f = SignedOverflow ∧ stochastic self = true) ∨
            (∃ it_first0 tbuckets0 bucket_i,
               f = NoLiveTypeBucket bucket_i (length tbuckets0) ∧
               Some (it_first, tbuckets) = Some (it_first0, tbuckets0) ∧
               Z.of_nat (length tbuckets0) ≤ bucket_i < 32) ∨
            (f = EmptyBucket ∧ queue_type self = RANDOM ∧
             2 ^ 31 ≤ size self) ∨
            (f = UseAfterFree ∧ queue_type self = FIFO ∧
             ∃ it_first0 tbuckets0 label tbucket,
               Some (it_first, tbuckets) = Some (it_first0, tbuckets0) ∧
               (label, tbucket) ∈ tbuckets0 ∧
               front_node_freed tbucket = true)) as Hfrom.
  { intros [Hover|[(bucket_i & -> & Hrange)
                  |[(-> & Hqueue & label & tbucket & Hin & Hbig)
                   |(-> & Hqueue & label & tbucket & Hin & Hfreed)]]].
    - by right; right; left.
    - right; right; right; left. by exists it_first, tbuckets, bucket_i.
    - right; right; right; right; left. split; [done|]. split; [done|].
      pose proof (buckets_entries_bound _ _ _ _ _ Hlookup Hin) as Hle.
      unfold stored in Hsize. bucket_lia.
    - right; right; right; right; right. split; [done|]. split; [done|].
      by exists it_first, tbuckets, label, tbucket. }
  destruct key as [v|].
  - destruct (bool_decide (v = [])) eqn:Hslot; cbn [assert rbind ok] in Hrun.
    2: { right; left. injection Hrun as <-. split; [done|].
         exists v. split; [done|]. by apply bool_decide_eq_false in Hslot. }
    exact (Hfrom (remove_min_faults_selection self g f it_first tbuckets
                    (Some it_first) Hrec Hdiv Hall Hrun)).
  - cbn [rbind ok] in Hrun.
    exact (Hfrom (remove_min_faults_selection self g f it_first tbuckets None
                    Hrec Hdiv Hall Hrun)).
Qed.
End RemoveMinFaults.

(** In stochastic mode a draw of 5 selects position 5 of two type buckets. *)
Lemma remove_min_faults_witness :
  remove_min None (example_two_types FIFO true) [5%nat]
    = fault (NoLiveTypeBucket 5 2) ∧
  ((NoLiveTypeBucket 5 2 = AssertionFailed SizePositive ∧
      buckets (example_two_types FIFO true) = ∅) ∨
   (NoLiveTypeBucket 5 2 = AssertionFailed KeySlotEmpty ∧
      ∃ v : Key, None = Some v ∧ v ≠ []) ∨
   (NoLiveTypeBucket 5 2 = SignedOverflow ∧
      stochastic (example_two_types FIFO true) = true) ∨
   (∃ it_first tbuckets bucket_i,
      NoLiveTypeBucket 5 2 = NoLiveTypeBucket bucket_i (length tbuckets) ∧
      begin (buckets (example_two_types FIFO true))
        = Some (it_first, tbuckets) ∧
      Z.of_nat (length tbuckets) ≤ bucket_i < 32) ∨
   (NoLiveTypeBucket 5 2 = EmptyBucket ∧
      queue_type (example_two_types FIFO true) = RANDOM ∧
      2 ^ 31 ≤ size (example_two_types FIFO true)) ∨
   (NoLiveTypeBucket 5 2 = UseAfterFree ∧
      queue_type (example_two_types FIFO true) = FIFO ∧
      ∃ it_first tbuckets label tbucket,
        begin (buckets (example_two_types FIFO true))
          = Some (it_first, tbuckets) ∧
        (label, tbucket) ∈ tbuckets ∧ front_node_freed tbucket = true)).
Proof.
  split; [vm_compute; reflexivity|].
  apply (remove_min_faults None (example_two_types FIFO true) [5%nat]).
  - apply example_two_types_reachable.
  - vm_compute; reflexivity.
Defined.

(** ** The constructor and [max_depth] *)

Section MaxDepth.
Context {Entry : Type} `{!Sizeof Entry}.
Implicit Types (self : FractalOpenList Entry) (g : RandomNumberGenerator).

(** X14: [remove_min] never reads [max_depth]: on a list with another
    value of [max_depth] it takes the same course, fault or return, and
    returns the same entry, key, generator and list, up to that value. *)
Theorem remove_min_ignores_max_depth key self g depth :
  remove_min key (set_max_depth self depth) g =
  ('(entry, key', self', g') ←! remove_min key self g;
   ok (entry, key', set_max_depth self' depth, g')).
Proof.
  unfold remove_min.
  change (size (set_max_depth self depth)) with (size self).
  destruct (0 <? size self); [|reflexivity]. cbn [assert rbind ok].
  change (buckets (set_size (set_max_depth self depth) (size self - 1)))
    with (buckets self).
  change (buckets (set_size self (size self - 1))) with (buckets self).
  destruct (begin (buckets self)) as [[it_first tbuckets]|]; [|reflexivity].
  cbn [or_fault rbind ok].
  destruct (bool_decide (tbuckets = [])); [reflexivity|].
  cbn [negb assert rbind ok].
  assert (∀ key0 : option Key,
    ('(bucket_i, dim, g0) ←!
       retry (stochastic (set_size (set_max_depth self depth) (size self - 1)))
         (initial_records
            (records_of (set_size (set_max_depth self depth) (size self - 1))
               it_first))
         (dimension_of (set_size (set_max_depth self depth) (size self - 1))
            it_first) g;
     records ←!
       increment_record
         (grow_records
            (initial_records
               (records_of
                  (set_size (set_max_depth self depth) (size self - 1))
                  it_first)) bucket_i) bucket_i;
     '(label, tbucket) ←!
       or_fault (tbuckets !! Z.to_nat bucket_i)
         (NoLiveTypeBucket bucket_i (length tbuckets));
     _ ←! assert (negb (bool_decide (entries tbucket = []))) TypeBucketNonEmpty;
     '(entry, tbucket, g0) ←! pop_bucket tbucket (queue_type self) g0;
     ok (entry, key0,
         set_buckets
           (set_diversification
              (set_size (set_max_depth self depth) (size self - 1))
              (<[it_first := records]> (expansion_records self))
              (<[it_first := dim]> (current_dimension self)))
           (store_type_bucket it_first (Z.to_nat bucket_i) label tbucket
              tbuckets (buckets self)),
         g0)) =
    ('(entry, key', self', g') ←!
       ('(bucket_i, dim, g0) ←!
          retry (stochastic (set_size self (size self - 1)))
            (initial_records
               (records_of (set_size self (size self - 1)) it_first))
            (dimension_of (set_size self (size self - 1)) it_first) g;
        records ←!
          increment_record
            (grow_records
               (initial_records
                  (records_of (set_size self (size self - 1)) it_first))
               bucket_i) bucket_i;
        '(label, tbucket) ←!
          or_fault (tbuckets !! Z.to_nat bucket_i)
            (NoLiveTypeBucket bucket_i (length tbuckets));
        _ ←! assert (negb (bool_decide (entries tbucket = []))) TypeBucketNonEmpty;
        '(entry, tbucket, g0) ←! pop_bucket tbucket (queue_type self) g0;
        ok (entry, key0,
            set_buckets
              (set_diversification (set_size self (size self - 1))
                 (<[it_first := records]> (expansion_records self))
                 (<[it_first := dim]> (current_dimension self)))
              (store_type_bucket it_first (Z.to_nat bucket_i) label tbucket
                 tbuckets (buckets self)),
            g0));
     ok (entry, key', set_max_depth self' depth, g'))) as Hrest.
  { intros key0.
    change (stochastic (set_size (set_max_depth self depth) (size self - 1)))
      with (stochastic self).
    change (records_of (set_size (set_max_depth self depth) (size self - 1))
              it_first) with (records_of self it_first).
    change (dimension_of (set_size (set_max_depth self depth) (size self - 1))
              it_first) with (dimension_of self it_first).
    change (stochastic (set_size self (size self - 1)))
      with (stochastic self).
    change (records_of (set_size self (size self - 1)) it_first)
      with (records_of self it_first).
    change (dimension_of (set_size self (size self - 1)) it_first)
      with (dimension_of self it_first).
    destruct (retry _ _ _ g) as [f0|[[bucket_i dim] g1]]; [reflexivity|].
    cbn [rbind ok].
    destruct (increment_record _ _) as [f0|records]; [reflexivity|].
    cbn [rbind ok].
    destruct (tbuckets !! Z.to_nat bucket_i) as [[label tbucket]|];
      [|reflexivity].
    cbn [or_fault rbind ok].
    destruct (bool_decide (entries tbucket = [])); [reflexivity|].
    cbn [negb assert rbind ok].
    destruct (pop_bucket _ _ _) as [f0|[[entry tbucket'] g2]]; reflexivity. }
  destruct key as [v|].
  - destruct (bool_decide (v = [])); [|reflexivity].
    cbn [assert rbind ok]. exact (Hrest (Some it_first)).
  - cbn [rbind ok]. exact (Hrest None).
Qed.
End MaxDepth.
